(** * Carry-chain derivation for a 32-bit adder

    A shallow embedding of [tool/adder_derivation.py] and of the part of
    the symbolic-algebra library (sympy) it calls: [Symbol], [And], [Or],
    [to_dnf] and the default string rendering of boolean expressions.

    - [Module py]: the pieces of the Python runtime the script uses.
    - [Module sympy]: the library routines.  Their sources are not part of
      the repository; they are modelled after the library on the fragment
      the script builds (symbols, conjunctions, disjunctions and the two
      constants).
    - [Module adder_derivation]: the script, statement by statement.  The
      module-level variables [p], [s], [c] and the text written to
      standard output form an explicit state; a statement that may raise
      returns an [option].

    Two things that the script cannot observe but that differ from one
    run to the next are parameters of the embedding: the order in which a
    hash set of the library enumerates its members ([hash_order]) and the
    recursion depth available to the normal-form conversion ([fuel]).

    Statements about the meaning of the output read the printed text
    itself: [parse_text] reads an expression over the bits [a[j]] and
    [b[j]] from its characters and [read_text] gives its value. *)

From Stdlib Require Import String Ascii DecimalString DecimalNat OrderedTypeEx.
From stdpp Require Import base list sorting strings.

#[local] Open Scope string_scope.
#[local] Open Scope list_scope.
#[local] Set Warnings "-register-all".

(** ** Python runtime pieces used by the script *)

Module py.

(** [str(i)] for a non-negative integer: its decimal digits. *)
Definition str_int (i : nat) : string :=
  NilEmpty.string_of_uint (Nat.to_uint i).

(** [range(lo, hi)]. *)
Definition range (lo hi : nat) : list nat := seq lo (hi - lo).

(** [for x in xs: body], where the body may raise: the loop stops at the
    first failure. *)
Fixpoint for_ {A St : Type} (xs : list A) (body : A -> St -> option St)
    (st : St) : option St :=
  match xs with
  | [] => Some st
  | x :: xs' =>
      match body x st with
      | Some st' => for_ xs' body st'
      | None => None
      end
  end.

(** [sep.join(parts)]. *)
Fixpoint join (sep : string) (parts : list string) : string :=
  match parts with
  | [] => EmptyString
  | [x] => x
  | x :: rest => x +:+ sep +:+ join sep rest
  end.

(** The line terminator written by [print]. *)
Definition newline : string := String (ascii_of_nat 10) EmptyString.

(** [text.split("\n")] without the empty piece after a final newline:
    the lines of a text written by successive [print] calls. *)
Fixpoint lines_aux (cur : string) (text : string) : list string :=
  match text with
  | EmptyString => match cur with EmptyString => [] | _ => [cur] end
  | String ch rest =>
      if Ascii.eqb ch (ascii_of_nat 10)
      then cur :: lines_aux EmptyString rest
      else lines_aux (cur +:+ String ch EmptyString) rest
  end.

(** See [lines_aux]. *)
Definition splitlines (text : string) : list string := lines_aux EmptyString text.

End py.

(** ** The boolean-algebra library *)

Module sympy.

(** The two lattice operations of the library. *)
Inductive cls := AndCls | OrCls.

(** Modelled from the spec: the symbolic boolean expressions of the
    algebra library, whose classes are not under src/.  The atoms are
    "opaque symbols to the algebra layer", tagged with a name; compound
    expressions are n-ary conjunctions and disjunctions, given by their
    class ([e.func]) and their arguments ([e.args]); the two constants
    are what an empty conjunction or disjunction evaluates to. *)
Inductive expr :=
| BooleanTrue
| BooleanFalse
| Sym (name : string)
| Node (func : cls) (args : list expr).

(** Equality of classes and of expressions is decidable ([==]). *)
#[global] Instance cls_eq_dec : EqDecision cls.
Proof. intros x y; unfold Decision; decide equality. Defined.

Fixpoint expr_eq_dec (x y : expr) : {x = y} + {x <> y}.
Proof.
  decide equality.
  - apply string_dec.
  - apply (List.list_eq_dec expr_eq_dec).
  - apply cls_eq_dec.
Defined.

#[global] Instance expr_eq_decision : EqDecision expr := expr_eq_dec.

(** [e.args]: empty for atoms. *)
Definition args_of (e : expr) : list expr :=
  match e with
  | Node _ l => l
  | _ => []
  end.

(** [isinstance(e, cls)]. *)
Definition isinstance (e : expr) (k : cls) : bool :=
  match e with
  | Node f _ => bool_decide (f = k)
  | _ => false
  end.

(** *** Canonical ordering of arguments ([sympy.core.sorting]) *)

(** [_node_count]: the number of nodes of the expression tree. *)
Fixpoint _node_count (e : expr) : nat :=
  match e with
  | Node _ l => S (list_sum (map _node_count l))
  | _ => 1
  end.

(** [class_key]: atoms sort before compound expressions, then by class
    name. *)
Definition class_key (e : expr) : nat * nat * string :=
  match e with
  | Sym _ => (2, 0, "Symbol")
  | BooleanTrue => (5, 0, "BooleanTrue")
  | BooleanFalse => (5, 0, "BooleanFalse")
  | Node AndCls _ => (5, 0, "And")
  | Node OrCls _ => (5, 0, "Or")
  end.

(** Lexicographic combination of two comparisons (the second one is only
    looked at when the first one is a tie), as Python compares tuples. *)
Notation "c1 'then_cmp' c2" :=
  (match c1 with Eq => c2 | Lt => Lt | Gt => Gt end)
  (at level 70, only parsing).

(** Comparison of two class keys. *)
Definition class_key_cmp (k1 k2 : nat * nat * string) : comparison :=
  let '(a1, b1, n1) := k1 in
  let '(a2, b2, n2) := k2 in
  Nat.compare a1 a2 then_cmp (Nat.compare b1 b2 then_cmp String.compare n1 n2).

(** Comparison of two [sort_key()] tuples: the class key, then the number
    of arguments, then the arguments' own keys from left to right.  For
    a symbol the only argument of the key is its name. *)
Fixpoint sort_key_cmp (x y : expr) : comparison :=
  class_key_cmp (class_key x) (class_key y) then_cmp
  match x, y with
  | Sym n1, Sym n2 => String.compare n1 n2
  | Node _ l1, Node _ l2 =>
      Nat.compare (length l1) (length l2) then_cmp
      (fix tuple_cmp (t1 t2 : list expr) : comparison :=
         match t1, t2 with
         | [], [] => Eq
         | [], _ :: _ => Lt
         | _ :: _, [] => Gt
         | a :: t1', b :: t2' => sort_key_cmp a b then_cmp tuple_cmp t1' t2'
         end) l1 l2
  | _, _ => Eq
  end.

(** The order used by [ordered]: node count first, then the sort key. *)
Definition ordered_cmp (x y : expr) : comparison :=
  Nat.compare (_node_count x) (_node_count y) then_cmp sort_key_cmp x y.

(** [x] does not come after [y]. *)
Definition ordered_le (x y : expr) : bool :=
  match ordered_cmp x y with Gt => false | _ => true end.

(** Insertion into a sorted list, before the first member that does not
    come before [x]. *)
Fixpoint ordered_insert (x : expr) (l : list expr) : list expr :=
  match l with
  | [] => [x]
  | y :: l' => if ordered_le x y then x :: l else y :: ordered_insert x l'
  end.

(** Modelled from the spec: the "deterministic canonicalization" of
    operand order, the library's [ordered(seq)], which is not under src/:
    a stable sort by [(node count, sort key)]. *)
Definition ordered (l : list expr) : list expr :=
  foldr ordered_insert [] l.

(** *** Construction of conjunctions and disjunctions *)

(** [cls.zero] and [cls.identity]. *)
Definition zero (k : cls) : expr :=
  match k with AndCls => BooleanFalse | OrCls => BooleanTrue end.

(** See [zero]. *)
Definition identity (k : cls) : expr :=
  match k with AndCls => BooleanTrue | OrCls => BooleanFalse end.

(** [LatticeOp._new_args_filter]: the absorbing element short-circuits
    the whole construction ([None]), the neutral element is dropped, and
    an argument of the same class is replaced by its own arguments. *)
Fixpoint _new_args_filter (k : cls) (arg_sequence : list expr)
    : option (list expr) :=
  match arg_sequence with
  | [] => Some []
  | arg :: rest =>
      if bool_decide (arg = zero k) then None
      else
        match _new_args_filter k rest with
        | None => None
        | Some out =>
            if bool_decide (arg = identity k) then Some out
            else if isinstance arg k then Some (args_of arg ++ out)
            else Some (arg :: out)
        end
  end.

Section frozenset.

(** The arguments of a new node are collected in a [frozenset], whose
    iteration order depends on the hash values of its members and is
    not fixed from one run to the next.  [hash_order] stands for that
    order: it is applied to the distinct members of the set. *)
Variable hash_order : list expr -> list expr.

(** [frozenset(l)], as the list of its members in hash order. *)
Definition frozenset (l : list expr) : list expr :=
  hash_order (remove_dups l).

(** Modelled from the spec: the constructors [And(...)] and [Or(...)] of
    the algebra library ([LatticeOp.__new__], not under src/), the
    "symbolic composition" of the builder.  The arguments are filtered,
    collected in a set, and stored in canonical order; no argument gives
    the neutral element and a single argument is returned as it is. *)
Definition LatticeOp_new (k : cls) (args : list expr) : expr :=
  match _new_args_filter k args with
  | None => zero k
  | Some filtered =>
      match frozenset filtered with
      | [] => identity k
      | [x] => x
      | _args => Node k (ordered _args)
      end
  end.

(** [And(x, y, ...)] and [Or(x, y, ...)]. *)
Definition And (args : list expr) : expr := LatticeOp_new AndCls args.

(** See [And]. *)
Definition Or (args : list expr) : expr := LatticeOp_new OrCls args.

(** The constructor of a class, for calls such as [info[2](c, rest)]. *)
Definition new (k : cls) : list expr -> expr :=
  match k with AndCls => And | OrCls => Or end.

(** *** Disjunctive normal form ([sympy.logic.boolalg]) *)

(** [is_literal]: on this fragment, the atoms. *)
Definition is_literal (e : expr) : bool :=
  match e with
  | Node _ _ => false
  | _ => true
  end.

(** [_is_form(expr, function1, function2)]: a [function1] of literals
    and of [function2]s of literals. *)
Definition _is_form (e : expr) (function1 function2 : cls) : bool :=
  let vals := if isinstance e function1 then args_of e else [e] in
  forallb (fun lit =>
             if isinstance lit function2
             then forallb is_literal (args_of lit)
             else is_literal lit) vals.

(** [is_dnf(expr)]. *)
Definition is_dnf (e : expr) : bool := _is_form e OrCls AndCls.

(** [is_nnf(expr, simplified=False)]: every node is a conjunction, a
    disjunction or a literal.  The fragment has no other node. *)
Fixpoint is_nnf (e : expr) : bool :=
  match e with
  | Node _ l => forallb is_nnf l
  | _ => true
  end.

(** [expr.to_nnf(simplify=False)] for a conjunction or disjunction: the
    node is built again from its arguments, those that are not literals
    being converted first. *)
Fixpoint _to_nnf (e : expr) : expr :=
  match e with
  | Node k l =>
      new k (map (fun arg => if is_literal arg then arg else _to_nnf arg) l)
  | _ => e
  end.

(** [to_nnf(expr, simplify=False)]: an expression already in negation
    normal form is returned as it is. *)
Definition to_nnf (e : expr) : expr :=
  if is_nnf e then e else _to_nnf e.

(** [eliminate_implications(expr)]. *)
Definition eliminate_implications (e : expr) : expr := to_nnf e.

(** Modelled from the spec: the recursion behind the library's
    canonicalization routine, [_distribute((expr, f1, f2))], which is not
    under src/: it distributes [f1] over [f2].  In a [f2] node the first
    argument that is a [f1] is taken out, and each of its arguments is
    combined with the rest of the node; in a [f1] node the arguments are
    treated one by one.  [a is not conj] compares arguments of one node,
    which are distinct members of a set, so it is modelled by inequality.
    The recursion is not structural (it recurses on newly built
    conjunctions), so the embedding takes a bound on the recursion depth
    and returns [None] when the bound is reached. *)
Fixpoint _distribute (fuel : nat) (info0 : expr) (info1 info2 : cls)
    : option expr :=
  match fuel with
  | O => None
  | S fuel' =>
      if isinstance info0 info2 then
        match List.find (fun arg => isinstance arg info1) (args_of info0) with
        | Some conj' =>
            let rest :=
              new info2
                  (List.filter (fun a => negb (bool_decide (a = conj')))
                               (args_of info0)) in
            match mapM (fun c' => _distribute fuel' (new info2 [c'; rest])
                                              info1 info2)
                       (args_of conj') with
            | Some parts => Some (new info1 parts)
            | None => None
            end
        | None => Some info0
        end
      else if isinstance info0 info1 then
        match mapM (fun x => _distribute fuel' x info1 info2)
                   (args_of info0) with
        | Some parts => Some (new info1 parts)
        | None => None
        end
      else Some info0
  end.

(** [distribute_or_over_and(expr)]. *)
Definition distribute_or_over_and (fuel : nat) (e : expr) : option expr :=
  _distribute fuel e OrCls AndCls.

(** Modelled from the spec: [to_dnf(expr)], "the algebra library's
    canonicalization routine" that computes the "disjunctive normal form"
    ("an OR of AND-clauses over literals"), which is not under src/.  The
    script calls it with the default [simplify=False]: an atom and an
    expression already in normal form are returned as they are, anything
    else goes through [distribute_or_over_and]. *)
Definition to_dnf (fuel : nat) (e : expr) : option expr :=
  match e with
  | Node _ _ =>
      if is_dnf e then Some e
      else distribute_or_over_and fuel (eliminate_implications e)
  | _ => Some e
  end.

End frozenset.

(** Modelled from the spec: [Symbol(name)], an "atomic symbolic term ...
    tagged with a human-readable name" (the class is not under src/). *)
Definition Symbol (name : string) : expr := Sym name.

(** *** Default string rendering ([StrPrinter]) *)

(** Operator precedences of the printer. *)
Definition precedence (e : expr) : nat :=
  match e with
  | Node AndCls _ => 30
  | Node OrCls _ => 20
  | _ => 1000
  end.

(** [PRECEDENCE["BitwiseAnd"]] and [PRECEDENCE["BitwiseOr"]], the levels
    at which the arguments of [&] and [|] are printed. *)
Definition PRECEDENCE_BitwiseAnd : nat := 38.

(** See [PRECEDENCE_BitwiseAnd]. *)
Definition PRECEDENCE_BitwiseOr : nat := 36.

(** Modelled from the spec: "the library's default string rendering" of
    an expression, [str(expr)], whose printer is not under src/.  A
    symbol prints as its name; the arguments of a conjunction are joined
    with [" & "], those of a disjunction with [" | "], in their stored
    order, and an argument that binds less tightly than the operator is
    put in parentheses. *)
Fixpoint sstr (e : expr) : string :=
  match e with
  | BooleanTrue => "True"
  | BooleanFalse => "False"
  | Sym name => name
  | Node k l =>
      let '(sep, level) :=
        match k with
        | AndCls => (" & ", PRECEDENCE_BitwiseAnd)
        | OrCls => (" | ", PRECEDENCE_BitwiseOr)
        end in
      py.join sep
        (map (fun item =>
                if Nat.leb (precedence item) level
                then "(" +:+ sstr item +:+ ")"
                else sstr item) l)
  end.

End sympy.

(** ** The script *)

Module adder_derivation.
Import py sympy.

(** The module-level variables of the script and the text written to
    standard output so far. *)
Record state := mkState {
  p : list expr;
  s : list expr;
  c : list expr;
  stdout : string
}.

(** The state before the first statement: nothing is bound yet and
    nothing has been written. *)
Definition initial : state :=
  {| p := []; s := []; c := []; stdout := EmptyString |}.

(** The names given to the atoms: [f"(a[{i}] & b[{i}])"] and
    [f"(a[{i}] | b[{i}])"]. *)
Definition p_name (i : nat) : string :=
  "(a[" +:+ str_int i +:+ "] & b[" +:+ str_int i +:+ "])".

(** See [p_name]. *)
Definition s_name (i : nat) : string :=
  "(a[" +:+ str_int i +:+ "] | b[" +:+ str_int i +:+ "])".

(** [print(text)]: the text and a line terminator go to standard output. *)
Definition print (text : string) (st : state) : state :=
  {| p := p st; s := s st; c := c st;
     stdout := stdout st +:+ text +:+ newline |}.

Section run.

(** The two parameters of a run: the enumeration order of the library's
    hash sets and the recursion depth available to [to_dnf]. *)
Variable hash_order : list expr -> list expr.
Variable fuel : nat.

(** [p = [Symbol(f"(a[{i}] & b[{i}])") for i in range(32)]] *)
Definition assign_p (st : state) : state :=
  {| p := map (fun i => Symbol (p_name i)) (range 0 32);
     s := s st; c := c st; stdout := stdout st |}.

(** [s = [Symbol(f"(a[{i}] | b[{i}])") for i in range(32)]] *)
Definition assign_s (st : state) : state :=
  {| p := p st;
     s := map (fun i => Symbol (s_name i)) (range 0 32);
     c := c st; stdout := stdout st |}.

(** [c = [p[0]]]; indexing a list out of range raises. *)
Definition assign_c (st : state) : option state :=
  p0 ← p st !! 0;
  Some {| p := p st; s := s st; c := [p0]; stdout := stdout st |}.

(** The body of the first loop:
    [c.append(Or(p[i], And(s[i], c[i - 1])))].  The three subscripts are
    evaluated from left to right and each one raises when it is out of
    range; [i] starts at 1, so [i - 1] is never negative. *)
Definition append_carry (i : nat) (st : state) : option state :=
  pi ← p st !! i;
  si ← s st !! i;
  prev ← c st !! (i - 1);
  Some {| p := p st; s := s st;
          c := c st ++ [Or hash_order [pi; And hash_order [si; prev]]];
          stdout := stdout st |}.

(** [for i in range(1, 32): ...] *)
Definition build_loop : state -> option state :=
  for_ (range 1 32) append_carry.

(** The body of the second loop:
    [print(f"    assign c[{i}] = {to_dnf(c[i])};")]. *)
Definition print_carry (i : nat) (st : state) : option state :=
  ci ← c st !! i;
  d ← to_dnf hash_order fuel ci;
  Some (print ("    assign c[" +:+ str_int i +:+ "] = " +:+ sstr d +:+ ";") st).

(** [for i in range(32): ...] *)
Definition print_loop : state -> option state :=
  for_ (range 0 32) print_carry.

(** Lines 4 to 8: the construction of [p], [s] and [c]. *)
Definition construction (st : state) : option state :=
  st' ← assign_c (assign_s (assign_p st));
  build_loop st'.

(** The whole script. *)
Definition main : option state :=
  st ← construction initial;
  print_loop st.

End run.

End adder_derivation.

Import py sympy adder_derivation.

(** * Vocabulary of the statements *)

(** The position of a class in the order of class keys. *)
Definition rank (e : expr) : nat :=
  match e with
  | Sym _ => 0
  | Node AndCls _ => 1
  | BooleanFalse => 2
  | BooleanTrue => 3
  | Node OrCls _ => 4
  end.

(** The comparison of argument tuples inside [sort_key_cmp]. *)
Fixpoint tuple_cmp (t1 t2 : list expr) : comparison :=
  match t1, t2 with
  | [], [] => Eq
  | [], _ :: _ => Lt
  | _ :: _, [] => Gt
  | a :: t1', b :: t2' =>
      match sort_key_cmp a b with
      | Eq => tuple_cmp t1' t2'
      | Lt => Lt
      | Gt => Gt
      end
  end.

(** [ordered_le] as a relation. *)
Definition ordered_rel (x y : expr) : Prop := ordered_le x y = true.

(** A hash order enumerates the members of a set: it returns the distinct
    members it is given, in some order. *)
Definition hash_ok (h : list expr -> list expr) : Prop :=
  forall l, NoDup l -> h l ≡ₚ l.

(** The enumeration in insertion order. *)
Definition insertion_order (l : list expr) : list expr := l.

(** The value of an expression under an assignment of truth values to the
    symbol names. *)
Fixpoint eval (v : string -> bool) (e : expr) : bool :=
  match e with
  | BooleanTrue => true
  | BooleanFalse => false
  | Sym name => v name
  | Node AndCls l => forallb (eval v) l
  | Node OrCls l => existsb (eval v) l
  end.

(** The value of an operation applied to a list of operands. *)
Definition eval_args (v : string -> bool) (k : cls) (l : list expr) : bool :=
  match k with
  | AndCls => forallb (eval v) l
  | OrCls => existsb (eval v) l
  end.

(** A measure that decreases along the recursive calls of [_distribute]:
    a disjunction weighs one more than the sum of its arguments, a
    conjunction weighs their product. *)
Fixpoint weight (e : expr) : nat :=
  match e with
  | Node OrCls l => S (list_sum (map weight l))
  | Node AndCls l => foldr Nat.mul 1 (map weight l)
  | _ => 1
  end.

(** The product of the weights of a list of operands. *)
Definition product (l : list expr) : nat := foldr Nat.mul 1 (map weight l).
#[global] Arguments product : simpl never.

(** The values of [p] and [s] after lines 4 and 5. *)
Definition p_list : list expr := map (fun i => Symbol (p_name i)) (range 0 32).

(** See [p_list]. *)
Definition s_list : list expr := map (fun i => Symbol (s_name i)) (range 0 32).

(** The text of the line printed for index [i] and normal form [d]. *)
Definition line (i : nat) (d : expr) : string :=
  "    assign c[" +:+ str_int i +:+ "] = " +:+ sstr d +:+ ";".

(** The text written by printing the given lines one after the other. *)
Fixpoint printed (ls : list string) : string :=
  match ls with
  | [] => EmptyString
  | l :: ls' => l +:+ newline +:+ printed ls'
  end.

(** A text without line terminator. *)
Fixpoint no_newline (t : string) : bool :=
  match t with
  | EmptyString => true
  | String ch rest => negb (Ascii.eqb ch (ascii_of_nat 10)) && no_newline rest
  end.

(** The carries [c[0..n-1]] follow the recurrence of lines 6 to 8. *)
Definition chain (h : list expr -> list expr) (n : nat) (cs : list expr) : Prop :=
  length cs = n /\
  cs !! 0 = Some (Symbol (p_name 0)) /\
  forall i, 1 <= i < n ->
    exists prev,
      cs !! (i - 1) = Some prev /\
      cs !! i = Some (Or h [Symbol (p_name i); And h [Symbol (s_name i); prev]]).

(** [cls.make_args(e)]: the arguments of [e] when it is a [cls], and [e]
    alone otherwise. *)
Definition make_args (k : cls) (e : expr) : list expr :=
  if isinstance e k then args_of e else [e].

(** The disjuncts of a normal form and the literals of a disjunct. *)
Definition disjuncts (d : expr) : list expr := make_args OrCls d.

(** See [disjuncts]. *)
Definition literals (cl : expr) : list expr := make_args AndCls cl.

(** The conjunction [p[j] & s[j+1] & ... & s[i]] as a list of atoms. *)
Definition closed_clause (i j : nat) : list expr :=
  Symbol (p_name j) :: map (fun k => Symbol (s_name k)) (seq (S j) (i - j)).

(** The normal form printed for index [i] has one disjunct per [j <= i],
    made of the atoms of [closed_clause i j] in canonical order; the
    disjuncts come by increasing size. *)
Definition closed_form_check (i : nat) (d : expr) : bool :=
  is_dnf d &&
  bool_decide (length (disjuncts d) = S i) &&
  forallb (fun j =>
             bool_decide (NoDup (closed_clause i j)) &&
             bool_decide (literals <$> disjuncts d !! (i - j)
                          = Some (ordered (closed_clause i j))))
          (seq 0 (S i)).

(** The check run on the normal forms of the 32 carries: no printed line
    contains a line terminator, and every normal form has the closed
    form. *)
Definition dnf_check (ds : list expr) : bool :=
  forallb no_newline (imap line ds) &&
  forallb (fun x => x) (imap closed_form_check ds).

(** The recursion depth that [to_dnf] needs on the 32 carries. *)
Definition depth : nat := 32.

(** The names of all atoms. *)
Definition names : list string :=
  map p_name (seq 0 32) ++ map s_name (seq 0 32).

(** The truth value of an atom for given input words [a] and [b]: the
    symbol named [(a[j] & b[j])] stands for the conjunction of the two
    bits of index [j], the one named [(a[j] | b[j])] for their
    disjunction. *)
Definition atom_val (a b : nat -> bool) (name : string) : bool :=
  match List.find (fun j => String.eqb name (p_name j)) (range 0 32) with
  | Some j => a j && b j
  | None =>
      match List.find (fun j => String.eqb name (s_name j)) (range 0 32) with
      | Some j => a j || b j
      | None => false
      end
  end.

(** The carry out of bit [i] of a ripple-carry adder. *)
Fixpoint carry (a b : nat -> bool) (i : nat) : bool :=
  match i with
  | O => a 0 && b 0
  | S i' => (a i && b i) || ((a i || b i) && carry a b i')
  end.

(** The names of the symbols that occur in an expression. *)
Fixpoint atoms (e : expr) : list string :=
  match e with
  | Sym name => [name]
  | Node _ l => concat (map atoms l)
  | _ => []
  end.

(** The names that [c[i]] may mention: those of [p[0..i]] and [s[1..i]]. *)
Definition allowed (i : nat) : list string :=
  map p_name (seq 0 (S i)) ++ map s_name (seq 1 i).

(** The state after lines 4 to 6. *)
Definition after_line_6 : state :=
  {| p := p_list; s := s_list; c := [Symbol (p_name 0)]; stdout := EmptyString |}.

(** An operand that a new [k] node keeps as it is: a symbol or a node of
    the other class. *)
Definition operand (k : cls) (x : expr) : Prop :=
  match x with
  | Sym _ => True
  | Node k' _ => k' <> k
  | _ => False
  end.

(** [c[i]] is the symbol [p[0]] for [i = 0]; for [i >= 1] it is a
    disjunction of [p[i]] and of a conjunction of [s[i]] and [c[i-1]]. *)
Definition carry_shape (cs : list expr) (i : nat) (ci : expr) : Prop :=
  match i with
  | O => ci = Symbol (p_name 0)
  | S i' =>
      exists prev g,
        cs !! i' = Some prev /\
        isinstance ci OrCls = true /\
        args_of ci ≡ₚ [Symbol (p_name i); g] /\
        isinstance g AndCls = true /\
        args_of g ≡ₚ [Symbol (s_name i); prev]
  end.

(** The value of the [n] low bits of a word, bit 0 being the least
    significant one. *)
Fixpoint word_value (w : nat -> bool) (n : nat) : nat :=
  match n with
  | O => 0
  | S n' => word_value w n' + (if w n' then 2 ^ n' else 0)
  end.

(** A text without closing bracket. *)
Fixpoint no_close (t : string) : bool :=
  match t with
  | EmptyString => true
  | String ch rest => negb (Ascii.eqb ch "]") && no_close rest
  end.

(** The number of atom occurrences in a normal form. *)
Definition literal_count (d : expr) : nat :=
  list_sum (map (fun cl => length (literals cl)) (disjuncts d)).

(** ** Reading a printed expression back *)

(** Boolean expressions over the bits of the two input words, as a
    printed line denotes them. *)
Inductive bexp :=
| BitA (j : nat)
| BitB (j : nat)
| BAnd (x y : bexp)
| BOr (x y : bexp).

(** The value of an expression over the bits for given input words. *)
Fixpoint beval (a b : nat -> bool) (t : bexp) : bool :=
  match t with
  | BitA j => a j
  | BitB j => b j
  | BAnd x y => beval a b x && beval a b y
  | BOr x y => beval a b x || beval a b y
  end.

(** The value of a decimal digit. *)
Definition digit_of (ch : ascii) : option nat :=
  let n := nat_of_ascii ch in
  if Nat.leb 48 n && Nat.leb n 57 then Some (n - 48) else None.

(** Reads the longest run of decimal digits at the start of a text. *)
Fixpoint read_digits (acc : nat) (t : string) : nat * string :=
  match t with
  | EmptyString => (acc, t)
  | String ch rest =>
      match digit_of ch with
      | Some d => read_digits (10 * acc + d) rest
      | None => (acc, t)
      end
  end.

(** Reads a bit index and the closing bracket: one digit at least, then
    the bracket. *)
Definition read_index (t : string) : option (nat * string) :=
  match t with
  | EmptyString => None
  | String ch _ =>
      match digit_of ch with
      | None => None
      | Some _ =>
          match read_digits 0 t with
          | (j, String close rest) =>
              if Ascii.eqb close "]" then Some (j, rest) else None
          | _ => None
          end
      end
  end.

(** Drops the blanks at the start of a text. *)
Fixpoint skip_spaces (t : string) : string :=
  match t with
  | String ch rest => if Ascii.eqb ch " " then skip_spaces rest else t
  | EmptyString => t
  end.

(** A recursive-descent reader of expressions.  An expression is a
    sequence of terms separated by [|]; a term is a sequence of factors
    separated by [&]; a factor is an expression in parentheses or one of
    the bits [a[j]] and [b[j]] with a decimal index [j].  Blanks may stand
    between the tokens; [&] binds tighter than [|] and both associate to
    the left.  The result is the expression read and the text left over.
    [fuel] bounds the nesting of parentheses and the number of operands of
    one operator. *)
Fixpoint parse_expr (fuel : nat) (t : string) : option (bexp * string) :=
  match fuel with
  | O => None
  | S fuel' =>
      let parse_factor (t : string) : option (bexp * string) :=
        match skip_spaces t with
        | String ch rest =>
            if Ascii.eqb ch "(" then
              match parse_expr fuel' rest with
              | Some (x, rest') =>
                  match skip_spaces rest' with
                  | String close rest'' =>
                      if Ascii.eqb close ")" then Some (x, rest'') else None
                  | EmptyString => None
                  end
              | None => None
              end
            else
              match rest with
              | String open rest' =>
                  if Ascii.eqb open "[" then
                    match read_index rest' with
                    | Some (j, rest'') =>
                        if Ascii.eqb ch "a" then Some (BitA j, rest'')
                        else if Ascii.eqb ch "b" then Some (BitB j, rest'')
                        else None
                    | None => None
                    end
                  else None
              | EmptyString => None
              end
        | EmptyString => None
        end in
      let parse_term (t : string) : option (bexp * string) :=
        match parse_factor t with
        | Some (x, rest) =>
            (fix more (n : nat) (acc : bexp) (t : string) :=
               match skip_spaces t with
               | String ch rest' =>
                   if Ascii.eqb ch "&" then
                     match n with
                     | O => None
                     | S n' =>
                         match parse_factor rest' with
                         | Some (y, rest'') => more n' (BAnd acc y) rest''
                         | None => None
                         end
                     end
                   else Some (acc, t)
               | EmptyString => Some (acc, t)
               end) fuel' x rest
        | None => None
        end in
      match parse_term t with
      | Some (x, rest) =>
          (fix more (n : nat) (acc : bexp) (t : string) :=
             match skip_spaces t with
             | String ch rest' =>
                 if Ascii.eqb ch "|" then
                   match n with
                   | O => None
                   | S n' =>
                       match parse_term rest' with
                       | Some (y, rest'') => more n' (BOr acc y) rest''
                       | None => None
                       end
                   end
                 else Some (acc, t)
             | EmptyString => Some (acc, t)
             end) fuel' x rest
      | None => None
      end
  end.

(** Parsing a text back: the whole text must be one expression. *)
Definition parse_text (t : string) : option bexp :=
  match parse_expr (String.length t) t with
  | Some (x, rest) =>
      match skip_spaces rest with
      | EmptyString => Some x
      | String _ _ => None
      end
  | None => None
  end.

(** The value of a printed expression for given input words, when the
    text can be read. *)
Definition read_text (a b : nat -> bool) (t : string) : option bool :=
  beval a b <$> parse_text t.


(** The value of an atom for given input words: its name read as a
    printed expression. *)
Definition text_val (a b : nat -> bool) (name : string) : bool :=
  match parse_text name with
  | Some t => beval a b t
  | None => false
  end.

(** The expression over the bits that an expression of the library
    denotes: an atom denotes what its name reads as, and the arguments of
    a conjunction or disjunction are combined from left to right. *)
Fixpoint bits_of (e : expr) : option bexp :=
  match e with
  | Sym name => parse_text name
  | Node k (x :: l) =>
      (fix go (acc : option bexp) (l : list expr) : option bexp :=
         match l with
         | [] => acc
         | y :: l' =>
             go (match acc, bits_of y with
                 | Some u, Some w =>
                     Some (match k with AndCls => BAnd u w | OrCls => BOr u w end)
                 | _, _ => None
                 end) l'
         end) (bits_of x) l
  | _ => None
  end.

(** Equality of expressions over the bits. *)
Fixpoint bexp_eqb (t u : bexp) : bool :=
  match t, u with
  | BitA i, BitA j => Nat.eqb i j
  | BitB i, BitB j => Nat.eqb i j
  | BAnd x y, BAnd x' y' => bexp_eqb x x' && bexp_eqb y y'
  | BOr x y, BOr x' y' => bexp_eqb x x' && bexp_eqb y y'
  | _, _ => false
  end.

(** The check that the printed text of every normal form reads back as
    the expression over the bits that the normal form denotes. *)
Definition text_check (ds : list expr) : bool :=
  forallb (fun d =>
             match parse_text (sstr d), bits_of d with
             | Some t, Some u => bexp_eqb t u
             | _, _ => false
             end) ds.

(** * The model on small inputs *)

(** A conjunction is flattened, loses its duplicates and is stored in
    canonical order, whatever the hash order. *)
Example And_flattens :
  And (@rev expr) [Sym "x"; And (@rev expr) [Sym "y"; Sym "x"]]
  = Node AndCls [Sym "x"; Sym "y"].
Proof. reflexivity. Qed.

(** The absorbing and the neutral element of a disjunction. *)
Example Or_constants :
  Or insertion_order [Sym "x"; BooleanTrue] = BooleanTrue /\
  Or insertion_order [Sym "x"; BooleanFalse] = Sym "x".
Proof. split; reflexivity. Qed.

(** Symbols are ordered by their names, character by character, and
    before any compound expression. *)
Example ordered_symbols :
  ordered [Node AndCls [Sym "x"; Sym "y"];
           Symbol (s_name 9); Symbol (p_name 9); Symbol (p_name 10)]
  = [Symbol (p_name 10); Symbol (p_name 9); Symbol (s_name 9);
     Node AndCls [Sym "x"; Sym "y"]].
Proof. reflexivity. Qed.

(** Distribution of a conjunction of two disjunctions. *)
Example to_dnf_two_by_two :
  sstr <$> to_dnf insertion_order 3
             (Node AndCls [Node OrCls [Sym "x"; Sym "y"];
                           Node OrCls [Sym "z"; Sym "w"]])
  = Some "(w & x) | (w & y) | (x & z) | (y & z)".
Proof. reflexivity. Qed.

(** The carry [c[2]] as the script builds it, and the text printed for
    it. *)
Example carry_2_built :
  let c1 := Or insertion_order
              [Symbol (p_name 1);
               And insertion_order [Symbol (s_name 1); Symbol (p_name 0)]] in
  let c2 := Or insertion_order
              [Symbol (p_name 2); And insertion_order [Symbol (s_name 2); c1]] in
  sstr c2 =
    "(a[2] & b[2]) | ((a[2] | b[2]) & ((a[1] & b[1]) | ((a[0] & b[0]) & (a[1] | b[1]))))" /\
  to_dnf insertion_order 2 c2 = None /\
  sstr <$> to_dnf insertion_order 3 c2 =
    Some "(a[2] & b[2]) | ((a[1] & b[1]) & (a[2] | b[2])) | ((a[0] & b[0]) & (a[1] | b[1]) & (a[2] | b[2]))".
Proof. repeat split; reflexivity. Qed.

(** Reading a text back: [&] binds tighter than [|], and both associate
    to the left. *)
Example parse_text_precedence :
  parse_text "a[1] | b[0] & a[12] | (a[3] | b[3]) & b[7]"
  = Some (BOr (BOr (BitA 1) (BAnd (BitB 0) (BitA 12)))
              (BAnd (BOr (BitA 3) (BitB 3)) (BitB 7))).
Proof. reflexivity. Qed.

(** A text that is not an expression over the bits is not read. *)
Example parse_text_rejects :
  parse_text EmptyString = None /\
  parse_text "(a[0] & b[0]" = None /\
  parse_text "a[] & b[0]" = None /\
  parse_text "(a[0] & b[0]) |" = None /\
  parse_text "(a[0] & b[0]) (a[1] & b[1])" = None /\
  parse_text "True" = None.
Proof. repeat split; reflexivity. Qed.

(** The value of the text printed for [c[1]]. *)
Example read_text_carry_1 (a b : nat -> bool) :
  read_text a b "(a[1] & b[1]) | ((a[0] & b[0]) & (a[1] | b[1]))"
  = Some ((a 1 && b 1) || ((a 0 && b 0) && (a 1 || b 1))).
Proof. reflexivity. Qed.

(** * Properties of the library model *)

(** ** Induction on expressions *)

Lemma expr_ind' (P : expr -> Prop) :
  P BooleanTrue -> P BooleanFalse -> (forall n, P (Sym n)) ->
  (forall k l, Forall P l -> P (Node k l)) ->
  forall e, P e.
Proof.
  intros HT HF HS HN.
  refine (fix IH (e : expr) : P e :=
            match e with
            | BooleanTrue => HT
            | BooleanFalse => HF
            | Sym n => HS n
            | Node k l =>
                HN k l ((fix all (l : list expr) : Forall P l :=
                           match l with
                           | [] => Forall_nil_2 P
                           | x :: l' => Forall_cons_2 P x l' (IH x) (all l')
                           end) l)
            end).
Qed.

(** ** The canonical order is a total order *)

Section order.

Lemma class_key_cmp_rank x y :
  class_key_cmp (class_key x) (class_key y) = Nat.compare (rank x) (rank y).
Proof. destruct x as [| | |[] ?], y as [| | |[] ?]; reflexivity. Qed.

Lemma sort_key_cmp_unfold x y :
  sort_key_cmp x y =
  match Nat.compare (rank x) (rank y) with
  | Eq =>
      match x, y with
      | Sym n1, Sym n2 => String.compare n1 n2
      | Node _ l1, Node _ l2 =>
          match Nat.compare (length l1) (length l2) with
          | Eq => tuple_cmp l1 l2
          | Lt => Lt
          | Gt => Gt
          end
      | _, _ => Eq
      end
  | Lt => Lt
  | Gt => Gt
  end.
Proof.
  rewrite <- class_key_cmp_rank. destruct x, y; reflexivity.
Qed.

Lemma string_compare_refl n : String.compare n n = Eq.
Proof.
  pose proof (String.compare_antisym n n) as H.
  destruct (String.compare n n); simpl in H; congruence.
Qed.

Lemma string_compare_trans n1 n2 n3 :
  String.compare n1 n2 = Lt -> String.compare n2 n3 = Lt ->
  String.compare n1 n3 = Lt.
Proof.
  intros H1 H2. apply String_as_OT.cmp_lt.
  eapply String_as_OT.lt_trans; apply String_as_OT.cmp_lt; eassumption.
Qed.

Lemma nat_compare_lt_trans a b c' :
  Nat.compare a b = Lt -> Nat.compare b c' = Lt -> Nat.compare a c' = Lt.
Proof. rewrite !Nat.compare_lt_iff. lia. Qed.

(** Lexicographic combination: the three facts needed of the leading
    comparison, and transitivity of the trailing one on ties. *)
Lemma lex_trans (g1 g2 g3 h1 h2 h3 : comparison) :
  (g1 = Eq -> g3 = g2) -> (g2 = Eq -> g3 = g1) ->
  (g1 = Lt -> g2 = Lt -> g3 = Lt) ->
  (g1 = Eq -> g2 = Eq -> h1 = Lt -> h2 = Lt -> h3 = Lt) ->
  match g1 with Eq => h1 | Lt => Lt | Gt => Gt end = Lt ->
  match g2 with Eq => h2 | Lt => Lt | Gt => Gt end = Lt ->
  match g3 with Eq => h3 | Lt => Lt | Gt => Gt end = Lt.
Proof.
  intros E1 E2 T Th.
  destruct g1, g2; intros; try discriminate;
    repeat match goal with
           | H : ?x = ?x -> _ |- _ => specialize (H eq_refl)
           end; subst; auto.
Qed.

Lemma nat_lex_trans (a b c' : nat) (h1 h2 h3 : comparison) :
  (a = b -> b = c' -> h1 = Lt -> h2 = Lt -> h3 = Lt) ->
  match Nat.compare a b with Eq => h1 | Lt => Lt | Gt => Gt end = Lt ->
  match Nat.compare b c' with Eq => h2 | Lt => Lt | Gt => Gt end = Lt ->
  match Nat.compare a c' with Eq => h3 | Lt => Lt | Gt => Gt end = Lt.
Proof.
  intros Th. apply lex_trans.
  - intros ->%Nat.compare_eq_iff. reflexivity.
  - intros ->%Nat.compare_eq_iff. reflexivity.
  - apply nat_compare_lt_trans.
  - intros ?%Nat.compare_eq_iff ?%Nat.compare_eq_iff. auto.
Qed.

Lemma tuple_cmp_eq l1 :
  Forall (fun x => forall y, sort_key_cmp x y = Eq -> x = y) l1 ->
  forall l2, tuple_cmp l1 l2 = Eq -> l1 = l2.
Proof.
  induction 1 as [|x l1 Hx _ IH]; intros [|y l2]; simpl; try discriminate; auto.
  destruct (sort_key_cmp x y) eqn:E; try discriminate.
  intros H. f_equal; auto.
Qed.

Lemma sort_key_cmp_eq x y : sort_key_cmp x y = Eq -> x = y.
Proof.
  revert y. induction x as [| |n|k l IH] using expr_ind'; intros y;
    rewrite sort_key_cmp_unfold;
    destruct y as [| | |k' l']; try destruct k; try destruct k';
    simpl; try discriminate; auto.
  - intros ->%String.compare_eq_iff. reflexivity.
  - destruct (Nat.compare (length l) (length l')); try discriminate.
    intros H. f_equal. eapply tuple_cmp_eq; eauto.
  - destruct (Nat.compare (length l) (length l')); try discriminate.
    intros H. f_equal. eapply tuple_cmp_eq; eauto.
Qed.

Lemma tuple_cmp_refl l :
  Forall (fun x => sort_key_cmp x x = Eq) l -> tuple_cmp l l = Eq.
Proof. induction 1 as [|x l Hx _ IH]; simpl; [|rewrite Hx]; auto. Qed.

Lemma sort_key_cmp_refl x : sort_key_cmp x x = Eq.
Proof.
  induction x as [| |n|k l IH] using expr_ind';
    rewrite sort_key_cmp_unfold, Nat.compare_refl; auto.
  - apply string_compare_refl.
  - rewrite Nat.compare_refl. apply tuple_cmp_refl, IH.
Qed.

Lemma tuple_cmp_antisym l1 :
  Forall (fun x => forall y, sort_key_cmp y x = CompOpp (sort_key_cmp x y)) l1 ->
  forall l2, tuple_cmp l2 l1 = CompOpp (tuple_cmp l1 l2).
Proof.
  induction 1 as [|x l1 Hx _ IH]; intros [|y l2]; simpl; auto.
  rewrite Hx. destruct (sort_key_cmp x y); simpl; auto.
Qed.

Lemma sort_key_cmp_antisym x y :
  sort_key_cmp y x = CompOpp (sort_key_cmp x y).
Proof.
  revert y. induction x as [| |n|k l IH] using expr_ind'; intros y;
    rewrite (sort_key_cmp_unfold y), (sort_key_cmp_unfold _ y);
    destruct y as [| | |k' l']; try destruct k; try destruct k';
    simpl; auto.
  - rewrite String.compare_antisym. destruct (String.compare _ _); reflexivity.
  - rewrite (Nat.compare_antisym (length l)).
    destruct (Nat.compare (length l) (length l')); simpl; auto.
    apply tuple_cmp_antisym, IH.
  - rewrite (Nat.compare_antisym (length l)).
    destruct (Nat.compare (length l) (length l')); simpl; auto.
    apply tuple_cmp_antisym, IH.
Qed.

Lemma tuple_cmp_trans l1 :
  Forall (fun x => forall y z, sort_key_cmp x y = Lt -> sort_key_cmp y z = Lt ->
                               sort_key_cmp x z = Lt) l1 ->
  forall l2 l3, tuple_cmp l1 l2 = Lt -> tuple_cmp l2 l3 = Lt ->
                tuple_cmp l1 l3 = Lt.
Proof.
  induction 1 as [|x l1 Hx _ IH]; intros [|y l2] [|z l3]; simpl;
    try discriminate; auto.
  apply lex_trans.
  - intros ->%sort_key_cmp_eq. reflexivity.
  - intros ->%sort_key_cmp_eq. reflexivity.
  - apply Hx.
  - intros _ _. apply IH.
Qed.

Lemma sort_key_cmp_trans x y z :
  sort_key_cmp x y = Lt -> sort_key_cmp y z = Lt -> sort_key_cmp x z = Lt.
Proof.
  revert y z. induction x as [| |n|k l IH] using expr_ind'; intros y z;
    rewrite (sort_key_cmp_unfold _ y), (sort_key_cmp_unfold y z),
            (sort_key_cmp_unfold _ z);
    destruct y as [| | |k' l']; try destruct k; try destruct k';
    simpl; try discriminate;
    destruct z as [| | |k'' l'']; try destruct k'';
    simpl; try discriminate; auto.
  - apply string_compare_trans.
  - apply nat_lex_trans. intros _ _. apply tuple_cmp_trans, IH.
  - apply nat_lex_trans. intros _ _. apply tuple_cmp_trans, IH.
Qed.

Lemma ordered_cmp_eq x y : ordered_cmp x y = Eq -> x = y.
Proof.
  unfold ordered_cmp. destruct (Nat.compare _ _); try discriminate.
  apply sort_key_cmp_eq.
Qed.

Lemma ordered_cmp_antisym x y : ordered_cmp y x = CompOpp (ordered_cmp x y).
Proof.
  unfold ordered_cmp. rewrite (Nat.compare_antisym (_node_count x)).
  destruct (Nat.compare (_node_count x) (_node_count y)); simpl; auto.
  apply sort_key_cmp_antisym.
Qed.

Lemma ordered_cmp_trans x y z :
  ordered_cmp x y = Lt -> ordered_cmp y z = Lt -> ordered_cmp x z = Lt.
Proof.
  unfold ordered_cmp. apply nat_lex_trans. intros _ _.
  apply sort_key_cmp_trans.
Qed.

#[local] Instance ordered_rel_antisym : AntiSymm eq ordered_rel.
Proof.
  intros x y. unfold ordered_rel, ordered_le.
  rewrite (ordered_cmp_antisym x y).
  destruct (ordered_cmp x y) eqn:E; simpl; try discriminate.
  intros _ _. apply ordered_cmp_eq, E.
Qed.

#[local] Instance ordered_rel_trans : Transitive ordered_rel.
Proof.
  intros x y z. unfold ordered_rel, ordered_le.
  destruct (ordered_cmp x y) eqn:E1; try discriminate; intros _.
  - apply ordered_cmp_eq in E1. subst. auto.
  - destruct (ordered_cmp y z) eqn:E2; try discriminate; intros _.
    + apply ordered_cmp_eq in E2. subst. rewrite E1. reflexivity.
    + rewrite (ordered_cmp_trans _ _ _ E1 E2). reflexivity.
Qed.

Lemma ordered_rel_total x y : ordered_rel x y \/ ordered_rel y x.
Proof.
  unfold ordered_rel, ordered_le. rewrite (ordered_cmp_antisym x y).
  destruct (ordered_cmp x y); simpl; auto.
Qed.

Lemma ordered_insert_perm x l : ordered_insert x l ≡ₚ x :: l.
Proof.
  induction l as [|y l IH]; simpl; auto.
  destruct (ordered_le x y); auto.
  rewrite IH. apply Permutation_swap.
Qed.

Lemma ordered_perm l : ordered l ≡ₚ l.
Proof.
  induction l as [|x l IH]; simpl; auto.
  rewrite ordered_insert_perm, IH. reflexivity.
Qed.

Lemma ordered_insert_sorted x l :
  StronglySorted ordered_rel l -> StronglySorted ordered_rel (ordered_insert x l).
Proof.
  induction l as [|y l IH]; simpl; intros Hs.
  - repeat constructor.
  - apply StronglySorted_cons in Hs as [Hy Hs].
    destruct (ordered_le x y) eqn:E.
    + apply StronglySorted_cons. split.
      * constructor; [exact E|].
        eapply Forall_impl; [exact Hy|]. intros z Hz.
        eapply ordered_rel_trans; [exact E|exact Hz].
      * apply StronglySorted_cons. auto.
    + apply StronglySorted_cons. split; [|auto].
      rewrite ordered_insert_perm. constructor; [|exact Hy].
      destruct (ordered_rel_total x y) as [H|H]; [|exact H].
      unfold ordered_rel in H. congruence.
Qed.

Lemma ordered_sorted l : StronglySorted ordered_rel (ordered l).
Proof.
  induction l as [|x l IH]; simpl; [constructor|].
  apply ordered_insert_sorted, IH.
Qed.

(** The result of [ordered] does not depend on the order in which the
    members are presented. *)
Lemma ordered_unique l1 l2 : l1 ≡ₚ l2 -> ordered l1 = ordered l2.
Proof.
  intros Hp. apply (StronglySorted_unique ordered_rel);
    auto using ordered_sorted.
  rewrite !ordered_perm. exact Hp.
Qed.

End order.

(** ** Negation normal form *)

Lemma is_nnf_true e : is_nnf e = true.
Proof.
  induction e as [| | |k l IH] using expr_ind'; simpl; try reflexivity.
  apply forallb_forall. intros x Hx. rewrite Forall_forall in IH.
  apply IH, list_elem_of_In, Hx.
Qed.

(** The expressions of the fragment contain no implication, equivalence
    or negation: they are returned unchanged. *)
Lemma eliminate_implications_id h e : eliminate_implications h e = e.
Proof. unfold eliminate_implications, to_nnf. rewrite is_nnf_true. reflexivity. Qed.

(** ** The hash order of sets does not show in the result *)

Lemma insertion_order_ok : hash_ok insertion_order.
Proof. intros l _. reflexivity. Qed.

Lemma rev_ok : hash_ok (@rev expr).
Proof. intros l _. symmetry. apply Permutation_rev. Qed.

Section hash_irrelevant.

Variable h : list expr -> list expr.
Hypothesis Hh : hash_ok h.

Lemma LatticeOp_new_hash k l :
  LatticeOp_new h k l = LatticeOp_new insertion_order k l.
Proof.
  unfold LatticeOp_new. destruct (_new_args_filter k l) as [f|]; [|reflexivity].
  unfold frozenset, insertion_order.
  pose proof (Hh (remove_dups f) (NoDup_remove_dups f)) as Hp.
  destruct (remove_dups f) as [|x [|y d]].
  - apply Permutation_nil_r in Hp. rewrite Hp. reflexivity.
  - apply Permutation_singleton_r in Hp. rewrite Hp. reflexivity.
  - pose proof (Permutation_length Hp) as Hl.
    destruct (h (x :: y :: d)) as [|x' [|y' d']] eqn:E; try discriminate.
    f_equal. apply ordered_unique, Hp.
Qed.

Lemma new_hash k l : new h k l = new insertion_order k l.
Proof. destruct k; apply LatticeOp_new_hash. Qed.

Lemma mapM_ext_in {A B} (f g : A -> option B) l :
  (forall x, x ∈ l -> f x = g x) -> mapM f l = mapM g l.
Proof.
  induction l as [|x l IH]; intros Hfg; simpl; [reflexivity|].
  rewrite Hfg by left. rewrite IH; [reflexivity|].
  intros y Hy. apply Hfg. right. exact Hy.
Qed.

Lemma _distribute_hash fuel e k1 k2 :
  _distribute h fuel e k1 k2 = _distribute insertion_order fuel e k1 k2.
Proof.
  revert e. induction fuel as [|fuel IH]; intros e; simpl; [reflexivity|].
  destruct (isinstance e k2).
  - destruct (List.find _ _) as [cj|]; [|reflexivity].
    rewrite !new_hash.
    erewrite mapM_ext_in; [|intros x _; rewrite new_hash; apply IH].
    destruct (mapM _ _); [|reflexivity]. rewrite new_hash. reflexivity.
  - destruct (isinstance e k1); [|reflexivity].
    erewrite mapM_ext_in; [|intros x _; apply IH].
    destruct (mapM _ _); [|reflexivity]. rewrite new_hash. reflexivity.
Qed.

Lemma to_dnf_hash fuel e :
  to_dnf h fuel e = to_dnf insertion_order fuel e.
Proof.
  destruct e as [| | |k l]; [reflexivity..|].
  unfold to_dnf. destruct (is_dnf _); [reflexivity|].
  rewrite !eliminate_implications_id. apply _distribute_hash.
Qed.

Lemma for_ext {A St} (xs : list A) (f g : A -> St -> option St) st :
  (forall x st', f x st' = g x st') -> for_ xs f st = for_ xs g st.
Proof.
  intros Hfg. revert st. induction xs as [|x xs IH]; intros st; simpl; auto.
  rewrite Hfg. destruct (g x st); auto.
Qed.

Lemma append_carry_hash i st :
  append_carry h i st = append_carry insertion_order i st.
Proof.
  unfold append_carry, And, Or. 
  destruct (p st !! i); simpl; [|reflexivity].
  destruct (s st !! i); simpl; [|reflexivity].
  destruct (c st !! (i - 1)); simpl; [|reflexivity].
  rewrite !LatticeOp_new_hash. reflexivity.
Qed.

Lemma construction_hash st :
  construction h st = construction insertion_order st.
Proof.
  unfold construction, build_loop, mbind, option_bind.
  destruct (assign_c _) as [st'|]; [|reflexivity].
  apply for_ext, append_carry_hash.
Qed.

Lemma print_carry_hash fuel i st :
  print_carry h fuel i st = print_carry insertion_order fuel i st.
Proof.
  unfold print_carry. destruct (c st !! i); simpl; [|reflexivity].
  rewrite to_dnf_hash. reflexivity.
Qed.

Lemma main_hash fuel : main h fuel = main insertion_order fuel.
Proof.
  unfold main, print_loop, mbind, option_bind. rewrite construction_hash.
  destruct (construction _ _) as [st|]; [|reflexivity].
  apply for_ext, print_carry_hash.
Qed.

End hash_irrelevant.

(** ** Truth-value semantics *)

Section semantics.

Variable v : string -> bool.

Lemma eval_Node k l : eval v (Node k l) = eval_args v k l.
Proof. destruct k; reflexivity. Qed.

Lemma eval_args_app k l1 l2 :
  eval_args v k (l1 ++ l2) =
  match k with
  | AndCls => eval_args v k l1 && eval_args v k l2
  | OrCls => eval_args v k l1 || eval_args v k l2
  end.
Proof. destruct k; simpl; [apply forallb_app|apply existsb_app]. Qed.

Lemma eval_args_cons k x l :
  eval_args v k (x :: l) =
  match k with
  | AndCls => eval v x && eval_args v k l
  | OrCls => eval v x || eval_args v k l
  end.
Proof. destruct k; reflexivity. Qed.

(** The value only depends on which operands occur. *)
Lemma eval_args_members k l1 l2 :
  (forall x, x ∈ l1 <-> x ∈ l2) -> eval_args v k l1 = eval_args v k l2.
Proof.
  intros Hm. apply eq_true_iff_eq. destruct k; simpl.
  - rewrite !forallb_forall. setoid_rewrite <- list_elem_of_In.
    split; intros H x Hx; apply H, Hm, Hx.
  - rewrite !existsb_exists. setoid_rewrite <- list_elem_of_In.
    split; intros (x & Hx & E); exists x; split; auto; apply Hm, Hx.
Qed.

Lemma eval_zero k l : zero k ∈ l -> eval_args v k l = eval v (zero k).
Proof.
  intros Hz. apply eq_true_iff_eq. destruct k; simpl.
  - rewrite forallb_forall. split; [|discriminate].
    intros H. apply (H BooleanFalse). apply list_elem_of_In, Hz.
  - rewrite existsb_exists. split; [reflexivity|]. intros _.
    exists BooleanTrue. split; [apply list_elem_of_In, Hz|reflexivity].
Qed.

Lemma _new_args_filter_None k l :
  _new_args_filter k l = None -> zero k ∈ l.
Proof.
  induction l as [|x l IH]; simpl; [discriminate|].
  case_bool_decide as Hz; [subst; left|].
  destruct (_new_args_filter k l); [|right; auto].
  case_bool_decide; [discriminate|]. destruct (isinstance x k); discriminate.
Qed.

Lemma isinstance_Node e k : isinstance e k = true -> e = Node k (args_of e).
Proof.
  destruct e; simpl; try discriminate.
  intros ->%bool_decide_eq_true. reflexivity.
Qed.

Lemma eval_isinstance e k :
  isinstance e k = true -> eval v e = eval_args v k (args_of e).
Proof.
  destruct e; simpl; try discriminate.
  intros ->%bool_decide_eq_true. apply eval_Node.
Qed.

Lemma _new_args_filter_eval k l f :
  _new_args_filter k l = Some f -> eval_args v k f = eval_args v k l.
Proof.
  revert f. induction l as [|x l IH]; simpl; intros f.
  - intros [= <-]. reflexivity.
  - case_bool_decide as Hz; [discriminate|].
    destruct (_new_args_filter k l) as [out|]; [|discriminate].
    specialize (IH _ eq_refl). rewrite eval_args_cons.
    case_bool_decide as Hi.
    + intros [= <-]. rewrite IH. subst x. destruct k; reflexivity.
    + destruct (isinstance x k) eqn:Ex; intros [= <-].
      * rewrite eval_args_app, IH, (eval_isinstance _ _ Ex).
        destruct k; reflexivity.
      * rewrite eval_args_cons, IH. reflexivity.
Qed.

Section with_hash.

Variable h : list expr -> list expr.
Hypothesis Hh : hash_ok h.

Lemma frozenset_members l x : x ∈ frozenset h l <-> x ∈ l.
Proof.
  unfold frozenset. rewrite (Hh _ (NoDup_remove_dups l)).
  apply elem_of_remove_dups.
Qed.

(** A constructed node has the value of the operation on the given
    arguments. *)
Lemma eval_new k l : eval v (new h k l) = eval_args v k l.
Proof.
  replace (new h k l) with (LatticeOp_new h k l) by (destruct k; reflexivity).
  unfold LatticeOp_new.
  destruct (_new_args_filter k l) as [f|] eqn:Ef.
  - rewrite <- (_new_args_filter_eval _ _ _ Ef).
    rewrite (eval_args_members k f (frozenset h f))
      by (intros x; symmetry; apply frozenset_members).
    destruct (frozenset h f) as [|x [|y d]].
    + destruct k; reflexivity.
    + destruct k; simpl; [rewrite andb_true_r|rewrite orb_false_r]; reflexivity.
    + rewrite eval_Node. apply eval_args_members.
      intros z. rewrite ordered_perm. reflexivity.
  - symmetry. apply eval_zero, _new_args_filter_None, Ef.
Qed.

Lemma eval_And l : eval v (And h l) = forallb (eval v) l.
Proof. apply (eval_new AndCls). Qed.

Lemma eval_Or l : eval v (Or h l) = existsb (eval v) l.
Proof. apply (eval_new OrCls). Qed.

Lemma existsb_Forall2 {A B} (f : A -> bool) (g : B -> bool) l1 l2 :
  Forall2 (fun x y => g y = f x) l1 l2 -> existsb g l2 = existsb f l1.
Proof. induction 1 as [|x y l1 l2 E _ IH]; simpl; [|rewrite E, IH]; auto. Qed.

Lemma forallb_filter_ne (x : expr) l :
  eval v x && forallb (eval v) l =
  eval v x && forallb (eval v)
                (List.filter (fun a => negb (bool_decide (a = x))) l).
Proof.
  induction l as [|y l IH]; simpl; [reflexivity|].
  case_bool_decide as E; simpl.
  - subst y. rewrite <- IH. destruct (eval v x); reflexivity.
  - destruct (eval v x), (eval v y); simpl in *; auto.
Qed.

Lemma forallb_remove (x : expr) l :
  x ∈ l ->
  forallb (eval v) l =
  eval v x && forallb (eval v)
                (List.filter (fun a => negb (bool_decide (a = x))) l).
Proof.
  intros Hx. rewrite <- forallb_filter_ne.
  destruct (forallb (eval v) l) eqn:E; [|rewrite andb_false_r; reflexivity].
  rewrite forallb_forall in E. rewrite E; [reflexivity|].
  apply list_elem_of_In, Hx.
Qed.

(** Distribution preserves the value. *)
Lemma _distribute_eval fuel e r :
  _distribute h fuel e OrCls AndCls = Some r -> eval v r = eval v e.
Proof.
  revert e r. induction fuel as [|fuel IH]; intros e r; simpl; [discriminate|].
  destruct (isinstance e AndCls) eqn:Ea.
  - destruct (List.find _ _) as [cj|] eqn:Ef; [|intros [= <-]; reflexivity].
    apply find_some in Ef as [Hin Ho]. apply list_elem_of_In in Hin.
    set (rest := And h (List.filter _ _)).
    destruct (mapM _ _) as [parts|] eqn:Em; [|discriminate].
    intros [= <-]. apply mapM_Some in Em.
    rewrite eval_Or.
    rewrite (eval_isinstance _ _ Ea). simpl eval_args.
    rewrite (forallb_remove cj) by exact Hin.
    rewrite (eval_isinstance _ _ Ho). simpl eval_args.
    rewrite (existsb_Forall2
               (fun c' => eval v c' && eval v rest) (eval v) (args_of cj) parts).
    + replace (forallb (eval v) _) with (eval v rest)
        by (apply eval_And).
      generalize (args_of cj). intros l. induction l as [|x l IHl]; simpl; auto.
      rewrite IHl. destruct (eval v x), (eval v rest), (existsb (eval v) l); reflexivity.
    + eapply Forall2_impl; [exact Em|]. intros x y Hxy. simpl in Hxy.
      apply IH in Hxy. rewrite Hxy.
      rewrite eval_And. simpl. rewrite andb_true_r. reflexivity.
  - destruct (isinstance e OrCls) eqn:Eo; [|intros [= <-]; reflexivity].
    destruct (mapM _ _) as [parts|] eqn:Em; [|discriminate].
    intros [= <-]. apply mapM_Some in Em.
    rewrite eval_Or.
    rewrite (eval_isinstance _ _ Eo). simpl eval_args.
    apply existsb_Forall2.
    eapply Forall2_impl; [exact Em|]. intros x y Hxy. apply IH, Hxy.
Qed.

Lemma to_dnf_eval fuel e d :
  to_dnf h fuel e = Some d -> eval v d = eval v e.
Proof.
  destruct e as [| | |k l]; [intros [= <-]; reflexivity..|].
  unfold to_dnf. destruct (is_dnf _); [intros [= <-]; reflexivity|].
  rewrite eliminate_implications_id. apply _distribute_eval.
Qed.

End with_hash.

End semantics.

(** ** More recursion depth never changes a result *)

Section fuel.

Variable h : list expr -> list expr.

Lemma _distribute_mono fuel fuel' e k1 k2 r :
  fuel <= fuel' ->
  _distribute h fuel e k1 k2 = Some r -> _distribute h fuel' e k1 k2 = Some r.
Proof.
  revert fuel' e r. induction fuel as [|fuel IH]; intros fuel' e r Hle;
    [discriminate|].
  destruct fuel' as [|fuel']; [lia|]. simpl.
  assert (Hm : forall (f : expr -> expr) l parts,
             mapM (fun x => _distribute h fuel (f x) k1 k2) l = Some parts ->
             mapM (fun x => _distribute h fuel' (f x) k1 k2) l = Some parts).
  { intros f l parts. rewrite !mapM_Some. intros HF.
    eapply Forall2_impl; [exact HF|]. intros x y. apply IH. lia. }
  destruct (isinstance e k2).
  - destruct (List.find _ _) as [cj|]; [|auto].
    destruct (mapM _ _) as [parts|] eqn:Em; [|discriminate].
    apply (Hm (fun c' => new h k2 [c'; _])) in Em. rewrite Em. auto.
  - destruct (isinstance e k1); [|auto].
    destruct (mapM _ _) as [parts|] eqn:Em; [|discriminate].
    apply (Hm (fun x => x)) in Em. rewrite Em. auto.
Qed.

Lemma to_dnf_mono fuel fuel' e d :
  fuel <= fuel' -> to_dnf h fuel e = Some d -> to_dnf h fuel' e = Some d.
Proof.
  intros Hle. destruct e as [| | |k l]; [auto..|].
  unfold to_dnf. destruct (is_dnf _); [auto|].
  rewrite eliminate_implications_id. apply _distribute_mono, Hle.
Qed.

(** Two runs of [to_dnf] that both come to an end agree. *)
Lemma to_dnf_fuel_irrelevant fuel1 fuel2 e d1 d2 :
  to_dnf h fuel1 e = Some d1 -> to_dnf h fuel2 e = Some d2 -> d1 = d2.
Proof.
  intros H1 H2.
  apply (to_dnf_mono _ (Nat.max fuel1 fuel2)) in H1; [|lia].
  apply (to_dnf_mono _ (Nat.max fuel1 fuel2)) in H2; [|lia].
  congruence.
Qed.

End fuel.

(** ** Distribution comes to an end *)

Section termination.

Lemma product_pos l : (forall x, x ∈ l -> 1 <= weight x) -> 1 <= product l.
Proof.
  unfold product. induction l as [|x l IH]; simpl; intros H; [lia|].
  assert (1 <= weight x) by (apply H; left).
  assert (1 <= foldr Nat.mul 1 (map weight l)) by (apply IH; intros; apply H; right; auto).
  nia.
Qed.

Lemma weight_pos e : 1 <= weight e.
Proof.
  induction e as [| | |k l IH] using expr_ind'; simpl; try lia.
  destruct k; [|lia]. apply product_pos. intros x Hx.
  rewrite Forall_forall in IH. auto.
Qed.

Lemma product_ge_1 l : 1 <= product l.
Proof. apply product_pos. intros; apply weight_pos. Qed.

Lemma product_app l1 l2 : product (l1 ++ l2) = product l1 * product l2.
Proof.
  unfold product. induction l1 as [|x l1 IH]; simpl; [lia|]. rewrite IH. lia.
Qed.

Lemma product_cons x l : product (x :: l) = weight x * product l.
Proof. reflexivity. Qed.

Lemma product_Permutation l1 l2 : l1 ≡ₚ l2 -> product l1 = product l2.
Proof.
  induction 1; rewrite ?product_cons in *; try lia. 
Qed.

Lemma product_remove_dups l : product (remove_dups l) <= product l.
Proof.
  induction l as [|x l IH]; simpl; [lia|].
  pose proof (weight_pos x). pose proof (product_ge_1 (remove_dups l)).
  destruct (decide_rel elem_of x l); rewrite ?product_cons; nia.
Qed.

Lemma product_filter (f : expr -> bool) l :
  product (List.filter f l) <= product l.
Proof.
  induction l as [|x l IH]; simpl; [lia|].
  pose proof (weight_pos x). pose proof (product_ge_1 (List.filter f l)).
  destruct (f x); rewrite ?product_cons; nia.
Qed.

Lemma product_remove x l :
  x ∈ l ->
  weight x * product (List.filter (fun a => negb (bool_decide (a = x))) l)
  <= product l.
Proof.
  induction l as [|y l IH]; intros Hx; [inversion Hx|]. simpl.
  rewrite product_cons. case_bool_decide as E; simpl.
  - subst y. apply Nat.mul_le_mono_l, product_filter.
  - apply elem_of_cons in Hx as [->|Hx]; [congruence|].
    rewrite product_cons. specialize (IH Hx).
    rewrite Nat.mul_assoc, (Nat.mul_comm (weight x)), <- Nat.mul_assoc.
    apply Nat.mul_le_mono_l, IH.
Qed.

Lemma _new_args_filter_product l f :
  _new_args_filter AndCls l = Some f -> product f = product l.
Proof.
  revert f. induction l as [|x l IH]; simpl; intros f.
  - intros [= <-]. reflexivity.
  - case_bool_decide as Hz; [discriminate|].
    destruct (_new_args_filter AndCls l) as [out|]; [|discriminate].
    specialize (IH _ eq_refl). rewrite product_cons.
    case_bool_decide as Hi.
    + intros [= <-]. subst x. simpl. lia.
    + destruct (isinstance x AndCls) eqn:Ex; intros [= <-].
      * rewrite product_app, IH. f_equal.
        destruct x; simpl in Ex; try discriminate.
        apply bool_decide_eq_true in Ex. subst. reflexivity.
      * rewrite product_cons, IH. reflexivity.
Qed.

Variable h : list expr -> list expr.
Hypothesis Hh : hash_ok h.

Lemma weight_And l : weight (And h l) <= product l.
Proof.
  unfold And, LatticeOp_new.
  destruct (_new_args_filter AndCls l) as [f|] eqn:Ef.
  - rewrite <- (_new_args_filter_product _ _ Ef).
    pose proof (product_remove_dups f) as Hd.
    unfold frozenset.
    rewrite <- (product_Permutation _ _ (Hh _ (NoDup_remove_dups f))) in Hd.
    destruct (h (remove_dups f)) as [|x [|y d]].
    + simpl. apply product_ge_1.
    + rewrite product_cons in Hd. change (product []) with 1 in Hd. lia.
    + change (product (ordered (x :: y :: d)) <= product f).
      rewrite (product_Permutation _ _ (ordered_perm _)). exact Hd.
  - simpl. apply product_ge_1.
Qed.

Lemma weight_arg_Or x l : x ∈ l -> weight x < weight (Node OrCls l).
Proof.
  simpl. induction l as [|y l IH]; intros Hx; [inversion Hx|].
  apply elem_of_cons in Hx as [->|Hx]; simpl; [lia|].
  specialize (IH Hx). lia.
Qed.

Lemma mapM_total {A B} (f : A -> option B) l :
  (forall x, x ∈ l -> is_Some (f x)) -> is_Some (mapM f l).
Proof.
  intros H. apply mapM_is_Some, Forall_forall. exact H.
Qed.

(** With a recursion depth above the weight of the expression,
    distribution comes to an end. *)
Lemma _distribute_terminates fuel e :
  weight e <= fuel -> is_Some (_distribute h (S fuel) e OrCls AndCls).
Proof.
  revert e. induction fuel as [|fuel IH]; intros e Hw.
  { pose proof (weight_pos e). lia. }
  assert (IH' : forall x, weight x < weight e ->
                          is_Some (_distribute h (S fuel) x OrCls AndCls)).
  { intros x Hx. apply IH. lia. }
  clear IH. remember (S fuel) as n eqn:En. simpl.
  destruct (isinstance e AndCls) eqn:Ea.
  - destruct (List.find _ _) as [cj|] eqn:Ef; [|eauto].
    apply find_some in Ef as [Hin Ho]. apply list_elem_of_In in Hin.
    set (rest := And h (List.filter _ _)).
    destruct (mapM _ _) as [parts|] eqn:Em; [eauto|].
    exfalso. apply (is_Some_None (A := list expr)). rewrite <- Em.
    apply mapM_total. intros x Hx. apply IH'.
    eapply Nat.le_lt_trans; [apply weight_And|].
    rewrite !product_cons. change (product []) with 1.
    rewrite Nat.mul_1_r.
    pose proof (weight_And (List.filter (fun a => negb (bool_decide (a = cj)))
                                        (args_of e))) as Hr.
    fold rest in Hr.
    pose proof (product_remove cj _ Hin) as Hp.
    apply isinstance_Node in Ea, Ho.
    assert (weight x < weight cj) by (rewrite Ho; apply weight_arg_Or, Hx).
    assert (weight e = product (args_of e)) as -> by (rewrite Ea at 1; reflexivity).
    pose proof (weight_pos rest). nia.
  - destruct (isinstance e OrCls) eqn:Eo; [|eauto].
    destruct (mapM _ _) as [parts|] eqn:Em; [eauto|].
    exfalso. apply (is_Some_None (A := list expr)). rewrite <- Em.
    apply mapM_total. intros x Hx. apply IH'.
    apply isinstance_Node in Eo. rewrite Eo. apply weight_arg_Or, Hx.
Qed.

(** [to_dnf] comes to an end on every expression. *)
Lemma to_dnf_terminates e : is_Some (to_dnf h (S (weight e)) e).
Proof.
  destruct e as [| | |k l]; [eexists; reflexivity..|].
  unfold to_dnf. destruct (is_dnf _); [eauto|].
  rewrite eliminate_implications_id. apply _distribute_terminates. reflexivity.
Qed.

End termination.

(** * Properties of the script *)

(** ** Loops *)

Section loops.

Lemma for_seq_inv {St : Type} (I : nat -> St -> Prop)
    (body : nat -> St -> option St) lo n st :
  I lo st ->
  (forall i st', lo <= i < lo + n -> I i st' ->
                 exists st'', body i st' = Some st'' /\ I (S i) st'') ->
  exists st', for_ (seq lo n) body st = Some st' /\ I (lo + n) st'.
Proof.
  revert lo st. induction n as [|n IH]; intros lo st H0 Hstep; simpl.
  - exists st. rewrite Nat.add_0_r. auto.
  - destruct (Hstep lo st) as (st1 & -> & H1); [lia|exact H0|].
    destruct (IH (S lo) st1) as (st' & E & H'); [exact H1| |].
    + intros i st' Hi. apply Hstep. lia.
    + exists st'. rewrite <- Nat.add_succ_comm. auto.
Qed.

Lemma p_list_lookup i : i < 32 -> p_list !! i = Some (Symbol (p_name i)).
Proof.
  intros Hi. unfold p_list, range. rewrite list_lookup_fmap, lookup_seq_lt by lia.
  reflexivity.
Qed.

Lemma s_list_lookup i : i < 32 -> s_list !! i = Some (Symbol (s_name i)).
Proof.
  intros Hi. unfold s_list, range. rewrite list_lookup_fmap, lookup_seq_lt by lia.
  reflexivity.
Qed.

Variable h : list expr -> list expr.

Lemma append_carry_chain i st :
  1 <= i < 32 -> p st = p_list -> s st = s_list -> chain h i (c st) ->
  exists st',
    append_carry h i st = Some st' /\
    p st' = p_list /\ s st' = s_list /\ stdout st' = stdout st /\
    chain h (S i) (c st').
Proof.
  intros Hi Hp Hs (Hlen & H0 & Hrec). unfold append_carry.
  rewrite Hp, Hs, p_list_lookup, s_list_lookup by lia. simpl.
  destruct (lookup_lt_is_Some_2 (c st) (i - 1)) as [prev Hprev]; [lia|].
  rewrite Hprev. simpl. eexists. split; [reflexivity|]. simpl.
  repeat split; auto.
  - rewrite length_app. simpl. lia.
  - rewrite lookup_app_l by lia. exact H0.
  - intros j Hj. destruct (decide (j = i)) as [->|Hne].
    + exists prev. split.
      * rewrite lookup_app_l by lia. exact Hprev.
      * rewrite lookup_app_r by lia.
        replace (i - length (c st)) with 0 by lia. reflexivity.
    + destruct (Hrec j) as (prev' & E1 & E2); [lia|].
      exists prev'. rewrite !lookup_app_l by lia. auto.
Qed.

(** Lines 4 to 8 always succeed, write nothing, and leave [c] with the
    32 carries of the recurrence. *)
Lemma construction_spec st0 :
  exists st,
    construction h st0 = Some st /\
    p st = p_list /\ s st = s_list /\ stdout st = stdout st0 /\
    chain h 32 (c st).
Proof.
  set (st1 := {| p := p_list; s := s_list; c := [Symbol (p_name 0)];
                 stdout := stdout st0 |}).
  assert (E1 : construction h st0 = for_ (seq 1 31) (append_carry h) st1)
    by reflexivity.
  rewrite E1.
  destruct (for_seq_inv
              (fun i st => p st = p_list /\ s st = s_list /\
                           stdout st = stdout st0 /\ chain h i (c st))
              (append_carry h) 1 31 st1) as (st & E & Hp & Hs & Ho & Hc).
  - do 3 (split; [reflexivity|]).
    split; [reflexivity|]. split; [reflexivity|]. intros i Hi. lia.
  - intros i st' Hi (Hp & Hs & Ho & Hc).
    destruct (append_carry_chain i st') as (st'' & E & ? & ? & ? & ?);
      [lia|auto..|].
    exists st''. split; [exact E|]. do 2 (split; [assumption|]).
    split; [congruence|assumption].
  - exists st. auto.
Qed.

Variable fuel : nat.

Lemma string_app_assoc (a b d : string) : (a +:+ b) +:+ d = a +:+ (b +:+ d).
Proof.
  induction a as [|ch a IH]; [reflexivity|].
  change (String ch ((a +:+ b) +:+ d) = String ch (a +:+ (b +:+ d))).
  f_equal. exact IH.
Qed.

Lemma string_app_nil_r (a : string) : a +:+ EmptyString = a.
Proof.
  induction a as [|ch a IH]; [reflexivity|].
  change (String ch (a +:+ EmptyString) = String ch a). f_equal. exact IH.
Qed.

Lemma print_carry_spec i st ci d :
  c st !! i = Some ci -> to_dnf h fuel ci = Some d ->
  print_carry h fuel i st = Some (print (line i d) st).
Proof. intros E1 E2. unfold print_carry. rewrite E1. simpl. rewrite E2. reflexivity. Qed.

Lemma printed_app l1 l2 : printed (l1 ++ l2) = printed l1 +:+ printed l2.
Proof.
  induction l1 as [|x l1 IH]; simpl; [reflexivity|].
  rewrite IH, !string_app_assoc. reflexivity.
Qed.

Lemma imap_line_snoc (ds : list expr) k d :
  ds !! k = Some d ->
  imap line (take (S k) ds) = imap line (take k ds) ++ [line k d].
Proof.
  intros E. rewrite (take_S_r _ _ _ E), imap_app. simpl.
  rewrite length_take, Nat.add_0_r.
  apply lookup_lt_Some in E. f_equal. f_equal. f_equal. lia.
Qed.

(** The second loop prints one line per carry, in index order, and
    changes nothing else. *)
Lemma print_loop_spec st ds :
  length (c st) = 32 ->
  Forall2 (fun ci d => to_dnf h fuel ci = Some d) (c st) ds ->
  exists st',
    print_loop h fuel st = Some st' /\
    p st' = p st /\ s st' = s st /\ c st' = c st /\
    stdout st' = stdout st +:+ printed (imap line ds).
Proof.
  intros Hlen HF. pose proof (Forall2_length _ _ _ HF) as Hl.
  destruct (for_seq_inv
              (fun k st' => p st' = p st /\ s st' = s st /\ c st' = c st /\
                            stdout st' = stdout st +:+ printed (imap line (take k ds)))
              (print_carry h fuel) 0 32 st) as (st' & E & Hp & Hs & Hc & Ho).
  - repeat split. simpl. rewrite string_app_nil_r. reflexivity. 
  - intros i st' Hi (Hp & Hs & Hc & Ho).
    destruct (lookup_lt_is_Some_2 (c st) i) as [ci Hci]; [lia|].
    destruct (Forall2_lookup_l _ _ _ _ _ HF Hci) as (d & Hd & Hdnf).
    exists (print (line i d) st'). split.
    + apply (print_carry_spec i st' ci d); [rewrite Hc; exact Hci|exact Hdnf].
    + simpl. do 3 (split; [assumption|]).
      rewrite Ho, (imap_line_snoc _ _ _ Hd), printed_app. simpl.
      rewrite !string_app_assoc. reflexivity.
  - exists st'. split; [exact E|]. do 3 (split; [assumption|]).
    rewrite Ho. simpl. rewrite take_ge by lia. reflexivity.
Qed.

Lemma lines_aux_line cur l rest :
  no_newline l = true ->
  lines_aux cur (l +:+ newline +:+ rest) = (cur +:+ l) :: lines_aux EmptyString rest.
Proof.
  revert cur. induction l as [|ch l IH]; intros cur; simpl.
  - intros _. rewrite string_app_nil_r. reflexivity.
  - intros [Hc Hl]%andb_true_iff. apply negb_true_iff in Hc. rewrite Hc.
    rewrite IH by exact Hl. rewrite string_app_assoc. reflexivity.
Qed.

(** A text printed line by line splits back into those lines. *)
Lemma splitlines_printed ls :
  forallb no_newline ls = true -> splitlines (printed ls) = ls.
Proof.
  unfold splitlines. induction ls as [|l ls IH]; simpl; [reflexivity|].
  intros [Hl Hls]%andb_true_iff.
  rewrite lines_aux_line by exact Hl. simpl. rewrite IH by exact Hls.
  reflexivity.
Qed.

End loops.

(** ** Shape of the printed normal forms *)

Lemma option_check {A B} (o : option A) (g : A -> option B) (f : B -> bool) :
  match o with
  | Some x => match g x with Some y => f y | None => false end
  | None => false
  end = true ->
  exists x y, o = Some x /\ g x = Some y /\ f y = true.
Proof.
  destruct o as [x|]; [|discriminate]. destruct (g x) as [y|] eqn:E; [|discriminate].
  intros H. exists x, y. auto.
Qed.

(** With the members of every set taken in insertion order and a recursion
    depth of [depth], every carry has a normal form and the normal forms
    pass the checks. *)
Lemma run_check_ok :
  exists st ds,
    construction insertion_order initial = Some st /\
    mapM (to_dnf insertion_order depth) (c st) = Some ds /\
    dnf_check ds = true.
Proof.
  apply (option_check (construction insertion_order initial)
                      (fun st => mapM (to_dnf insertion_order depth) (c st))
                      dnf_check).
  vm_compute. reflexivity.
Qed.

Lemma names_NoDup : NoDup names.
Proof. apply (bool_decide_eq_true_1 _). vm_compute. reflexivity. Qed.

Section run_facts.

Lemma forallb_imap_true {A} (f : nat -> A -> bool) (l : list A) i x :
  forallb (fun b => b) (imap f l) = true -> l !! i = Some x -> f i x = true.
Proof.
  intros H E. rewrite forallb_forall in H. apply H.
  apply list_elem_of_In, list_elem_of_lookup. exists i.
  rewrite list_lookup_imap, E. reflexivity.
Qed.

Lemma closed_form_check_spec i d :
  closed_form_check i d = true ->
  is_dnf d = true /\
  length (disjuncts d) = S i /\
  forall j, j <= i ->
    NoDup (closed_clause i j) /\
    exists cl, disjuncts d !! (i - j) = Some cl /\
               literals cl = ordered (closed_clause i j).
Proof.
  unfold closed_form_check.
  intros [[Hd Hl%bool_decide_eq_true]%andb_true_iff Hall]%andb_true_iff.
  split; [exact Hd|]. split; [exact Hl|]. intros j Hj.
  rewrite forallb_forall in Hall.
  assert (Hin : In j (seq 0 (S i))) by (apply in_seq; lia).
  apply Hall, andb_true_iff in Hin as [Hn Hc].
  apply bool_decide_eq_true in Hn, Hc.
  split; [exact Hn|].
  destruct (disjuncts d !! (i - j)) as [cl|]; [|discriminate].
  exists cl. split; [reflexivity|]. injection Hc as Hc. exact Hc.
Qed.

Variable h : list expr -> list expr.
Hypothesis Hh : hash_ok h.
Variable fuel : nat.
Hypothesis Hfuel : depth <= fuel.

(** What a run does: the construction succeeds, every carry has a
    normal form, and the output is made of their 32 lines. *)
Lemma run_spec :
  exists st1 st ds,
    construction h initial = Some st1 /\
    p st1 = p_list /\ s st1 = s_list /\ stdout st1 = EmptyString /\
    chain h 32 (c st1) /\
    main h fuel = Some st /\
    p st = p st1 /\ s st = s st1 /\ c st = c st1 /\
    Forall2 (fun ci d => to_dnf h fuel ci = Some d) (c st1) ds /\
    length ds = 32 /\
    stdout st = printed (imap line ds) /\
    splitlines (stdout st) = imap line ds /\
    forall i d, ds !! i = Some d -> closed_form_check i d = true.
Proof.
  destruct (construction_spec h initial) as (st1 & E1 & Hp & Hs & Ho & Hc).
  destruct run_check_ok as (st1' & ds & E1' & Em & Hrun).
  rewrite <- (construction_hash h Hh), E1 in E1'.
  injection E1' as <-. apply mapM_Some in Em.
  assert (HF : Forall2 (fun ci d => to_dnf h fuel ci = Some d) (c st1) ds).
  { eapply Forall2_impl; [exact Em|]. intros ci d Hd. simpl in Hd.
    rewrite (to_dnf_hash h Hh). eapply to_dnf_mono; [exact Hfuel|exact Hd]. }
  apply andb_true_iff in Hrun as [Hnl Hcf].
  destruct (print_loop_spec h fuel st1 ds) as (st & E2 & Hp' & Hs' & Hc' & Ho');
    [apply Hc|exact HF|].
  rewrite Ho in Ho'. change (EmptyString +:+ ?x) with x in Ho'.
  exists st1, st, ds.
  split; [exact E1|]. do 4 (split; [assumption|]).
  split; [unfold main, mbind, option_bind; rewrite E1; exact E2|].
  do 3 (split; [assumption|]). split; [exact HF|].
  split; [rewrite <- (Forall2_length _ _ _ HF); apply Hc|].
  split; [exact Ho'|].
  split; [rewrite Ho'; apply splitlines_printed, Hnl|].
  intros i d Hd. exact (forallb_imap_true _ _ _ _ Hcf Hd).
Qed.

End run_facts.

Lemma str_int_inj i j : str_int i = str_int j -> i = j.
Proof.
  unfold str_int. intros E. apply DecimalNat.Unsigned.to_uint_inj.
  apply (f_equal NilEmpty.uint_of_string) in E.
  rewrite !NilEmpty.usu in E. congruence.
Qed.

Lemma line_index i d :
  line i d = "    assign " +:+ ("c[" +:+ str_int i +:+ "]") +:+ " = " +:+ sstr d +:+ ";".
Proof.
  unfold line. rewrite !string_app_assoc. reflexivity.
Qed.

(** ** The meaning of the atoms *)

Section meaning.

Variables a b : nat -> bool.

Lemma atom_val_p j : j < 32 -> atom_val a b (p_name j) = a j && b j.
Proof.
  intros Hj. do 32 (destruct j as [|j]; [vm_compute; reflexivity|]). lia.
Qed.

Lemma atom_val_s j : j < 32 -> atom_val a b (s_name j) = a j || b j.
Proof.
  intros Hj. do 32 (destruct j as [|j]; [vm_compute; reflexivity|]). lia.
Qed.

Variable h : list expr -> list expr.
Hypothesis Hh : hash_ok h.

(** The carries built by the script compute the carries of the adder. *)
Lemma eval_chain cs i :
  chain h 32 cs -> i < 32 ->
  exists ci, cs !! i = Some ci /\ eval (atom_val a b) ci = carry a b i.
Proof.
  intros (Hlen & H0 & Hrec). induction i as [|i IH]; intros Hi.
  - eexists. split; [exact H0|]. simpl. apply (atom_val_p 0). lia.
  - destruct IH as (prev & Hprev & Hev); [lia|].
    destruct (Hrec (S i)) as (prev' & Hprev' & Hci); [lia|].
    replace (S i - 1) with i in Hprev' by lia.
    rewrite Hprev in Hprev'. injection Hprev' as <-.
    eexists. split; [exact Hci|].
    rewrite (eval_Or _ h Hh). simpl existsb. rewrite (eval_And _ h Hh).
    simpl. rewrite atom_val_p, atom_val_s, Hev by lia.
    rewrite andb_true_r, orb_false_r. reflexivity.
Qed.

End meaning.

Section normal_forms.

Variable v : string -> bool.

Lemma eval_disjuncts d : eval v d = existsb (eval v) (disjuncts d).
Proof.
  unfold disjuncts, make_args. destruct (isinstance d OrCls) eqn:E.
  - apply (eval_isinstance v d OrCls E).
  - simpl. rewrite orb_false_r. reflexivity.
Qed.

Lemma eval_literals cl : eval v cl = forallb (eval v) (literals cl).
Proof.
  unfold literals, make_args. destruct (isinstance cl AndCls) eqn:E.
  - apply (eval_isinstance v cl AndCls E).
  - simpl. rewrite andb_true_r. reflexivity.
Qed.

Lemma forallb_ordered l : forallb (eval v) (ordered l) = forallb (eval v) l.
Proof.
  apply (eval_args_members v AndCls). intros x. rewrite ordered_perm. reflexivity.
Qed.

(** A normal form that passed [closed_form_check] has the value of the
    closed form. *)
Lemma closed_form_eval i d :
  closed_form_check i d = true ->
  eval v d =
  existsb (fun j => forallb (eval v) (closed_clause i j)) (seq 0 (S i)).
Proof.
  intros (_ & Hlen & Hcl)%closed_form_check_spec.
  rewrite eval_disjuncts. apply eq_true_iff_eq. rewrite !existsb_exists. split.
  - intros (cl & Hin & Hev).
    apply list_elem_of_In, list_elem_of_lookup in Hin as (k & Hk).
    pose proof (lookup_lt_Some _ _ _ Hk) as Hlt.
    exists (i - k). split; [apply in_seq; lia|].
    destruct (Hcl (i - k)) as (_ & cl' & Hk' & Hlit); [lia|].
    replace (i - (i - k)) with k in Hk' by lia.
    rewrite Hk in Hk'. injection Hk' as <-.
    rewrite <- forallb_ordered, <- Hlit, <- eval_literals. exact Hev.
  - intros (j & Hj%in_seq & Hev).
    destruct (Hcl j) as (_ & cl & Hk & Hlit); [lia|].
    exists cl. split.
    + apply list_elem_of_In, list_elem_of_lookup. eauto.
    + rewrite eval_literals, Hlit, forallb_ordered. exact Hev.
Qed.

End normal_forms.

(** ** Loops preserve relations that their body preserves *)

Lemma for_rel {A St : Type} (R : St -> St -> Prop)
    (xs : list A) (f : A -> St -> option St) st st' :
  (forall s1, R s1 s1) ->
  (forall s1 s2 s3, R s1 s2 -> R s2 s3 -> R s1 s3) ->
  (forall x s1 s2, f x s1 = Some s2 -> R s1 s2) ->
  for_ xs f st = Some st' -> R st st'.
Proof.
  intros Hrefl Htrans Hf. revert st. induction xs as [|x xs IH]; intros st; simpl.
  - intros [= <-]. apply Hrefl.
  - destruct (f x st) as [s1|] eqn:E; [|discriminate].
    intros H. apply (Htrans _ s1); [eapply Hf, E|apply IH, H].
Qed.

Lemma for_app {A St : Type} (xs ys : list A) (f : A -> St -> option St) st :
  for_ (xs ++ ys) f st =
  match for_ xs f st with
  | Some st' => for_ ys f st'
  | None => None
  end.
Proof.
  revert st. induction xs as [|x xs IH]; intros st; simpl; [reflexivity|].
  destruct (f x st); [apply IH|reflexivity].
Qed.

Lemma for_mono {A St : Type} (xs : list A) (f g : A -> St -> option St) st st' :
  (forall x s1 s2, f x s1 = Some s2 -> g x s1 = Some s2) ->
  for_ xs f st = Some st' -> for_ xs g st = Some st'.
Proof.
  intros Hfg. revert st. induction xs as [|x xs IH]; intros st; simpl; [auto|].
  destruct (f x st) as [s1|] eqn:E; [|discriminate].
  rewrite (Hfg _ _ _ E). apply IH.
Qed.

(** ** Recursion depth and the whole run *)

Lemma print_carry_mono h fuel fuel' i st st' :
  fuel <= fuel' ->
  print_carry h fuel i st = Some st' -> print_carry h fuel' i st = Some st'.
Proof.
  intros Hle. unfold print_carry. destruct (c st !! i) as [ci|]; [|discriminate].
  simpl. destruct (to_dnf h fuel ci) as [d|] eqn:E; [|discriminate].
  rewrite (to_dnf_mono h _ _ _ _ Hle E). auto.
Qed.

Lemma main_mono h fuel fuel' st :
  fuel <= fuel' -> main h fuel = Some st -> main h fuel' = Some st.
Proof.
  intros Hle. unfold main, print_loop, mbind, option_bind.
  destruct (construction h initial) as [st1|]; [|discriminate].
  apply for_mono. intros i s1 s2. apply print_carry_mono, Hle.
Qed.

(** ** The atoms of an expression *)

Section atoms.

Lemma elem_of_concat {A} (x : A) (ls : list (list A)) :
  x ∈ concat ls <-> exists l, x ∈ l /\ l ∈ ls.
Proof.
  rewrite list_elem_of_In, in_concat. setoid_rewrite list_elem_of_In.
  split; intros (l & ? & ?); exists l; auto.
Qed.

Lemma atoms_args x e y : y ∈ args_of e -> x ∈ atoms y -> x ∈ atoms e.
Proof.
  destruct e as [| | |k l]; simpl; intros Hy Hx;
    [apply elem_of_nil in Hy; contradiction..|].
  apply elem_of_concat. exists (atoms y).
  split; [exact Hx|]. apply list_elem_of_fmap. eauto.
Qed.

Lemma atoms_Node x k l : x ∈ atoms (Node k l) -> exists y, y ∈ l /\ x ∈ atoms y.
Proof.
  simpl. intros (la & Hx & (y & -> & Hy)%list_elem_of_fmap)%elem_of_concat.
  eauto.
Qed.

Lemma _new_args_filter_members k l f y :
  _new_args_filter k l = Some f -> y ∈ f ->
  y ∈ l \/ exists e, e ∈ l /\ y ∈ args_of e.
Proof.
  revert f. induction l as [|x l IH]; simpl; intros f.
  - intros [= <-] H. inversion H.
  - case_bool_decide; [discriminate|].
    destruct (_new_args_filter k l) as [out|]; [|discriminate].
    specialize (IH _ eq_refl).
    assert (Hout : y ∈ out -> y ∈ x :: l \/ exists e, e ∈ x :: l /\ y ∈ args_of e).
    { intros [H'|(e & He & Hy)]%IH; [left; right; exact H'|].
      right. exists e. split; [right; exact He|exact Hy]. }
    case_bool_decide; [intros [= <-]; exact Hout|].
    destruct (isinstance x k); intros [= <-].
    + intros [Hy|Hy]%elem_of_app; [|auto].
      right. exists x. split; [left|exact Hy].
    + intros [->|Hy]%elem_of_cons; [left; left|auto].
Qed.

Variable h : list expr -> list expr.
Hypothesis Hh : hash_ok h.

(** A constructed node mentions no other symbol than its arguments do. *)
Lemma atoms_new k l x :
  x ∈ atoms (LatticeOp_new h k l) -> exists e, e ∈ l /\ x ∈ atoms e.
Proof.
  unfold LatticeOp_new.
  destruct (_new_args_filter k l) as [f|] eqn:Ef;
    [|destruct k; intros H; inversion H].
  assert (Hf : forall y, y ∈ frozenset h f -> x ∈ atoms y ->
                         exists e, e ∈ l /\ x ∈ atoms e).
  { intros y Hy Hx. apply (proj1 (frozenset_members h Hh f y)) in Hy.
    destruct (_new_args_filter_members _ _ _ _ Ef Hy) as [Hl|(e & He & Hye)];
      [eauto|].
    exists e. split; [exact He|]. eapply atoms_args; eauto. }
  destruct (frozenset h f) as [|y1 [|y2 d]] eqn:Efs.
  - destruct k; intros H; inversion H.
  - intros Hx. apply (Hf y1); [left|exact Hx].
  - intros (y & Hy & Hx)%atoms_Node. rewrite ordered_perm in Hy. eauto.
Qed.

Lemma allowed_mono i x : x ∈ allowed i -> x ∈ allowed (S i).
Proof.
  unfold allowed. rewrite !elem_of_app, !list_elem_of_fmap.
  setoid_rewrite elem_of_seq.
  intros [(j & -> & Hj)|(j & -> & Hj)]; [left|right]; exists j; split; auto; lia.
Qed.

Lemma atoms_chain cs i ci x :
  chain h 32 cs -> i < 32 -> cs !! i = Some ci -> x ∈ atoms ci -> x ∈ allowed i.
Proof.
  intros (Hlen & H0 & Hrec). revert ci x. induction i as [|i IH]; intros ci x Hi Hci.
  - rewrite H0 in Hci. injection Hci as <-. simpl.
    intros ->%list_elem_of_singleton. left.
  - destruct (Hrec (S i)) as (prev & Hprev & Hci'); [lia|].
    replace (S i - 1) with i in Hprev by lia.
    rewrite Hci in Hci'. injection Hci' as ->.
    intros (e & He & Hx)%atoms_new.
    apply elem_of_cons in He as [->|He].
    + simpl in Hx. apply list_elem_of_singleton in Hx as ->.
      unfold allowed. apply elem_of_app. left.
      apply list_elem_of_fmap. exists (S i). split; [reflexivity|].
      apply elem_of_seq. lia.
    + apply list_elem_of_singleton in He as ->.
      apply atoms_new in Hx as (e & He & Hx).
      apply elem_of_cons in He as [->|He].
      * simpl in Hx. apply list_elem_of_singleton in Hx as ->.
        unfold allowed. apply elem_of_app. right.
        apply list_elem_of_fmap. exists (S i). split; [reflexivity|].
        apply elem_of_seq. lia.
      * apply list_elem_of_singleton in He as ->.
        apply allowed_mono, (IH prev); [lia|exact Hprev|exact Hx].
Qed.

Lemma s0_not_allowed i : i < 32 -> s_name 0 ∉ allowed i.
Proof.
  intros Hi Hin. pose proof names_NoDup as Hnd. unfold names in Hnd.
  apply NoDup_app in Hnd as (_ & Hdisj & Hs).
  unfold allowed in Hin. apply elem_of_app in Hin as [Hin|Hin].
  - apply (Hdisj (s_name 0)).
    + apply list_elem_of_fmap in Hin as (j & -> & Hj%elem_of_seq).
      apply list_elem_of_fmap. exists j. split; [reflexivity|].
      apply elem_of_seq. lia.
    + apply list_elem_of_fmap. exists 0. split; [reflexivity|].
      apply elem_of_seq. lia.
  - apply list_elem_of_fmap in Hin as (j & Hj & Hr%elem_of_seq).
    assert (E0 : map s_name (seq 0 32) !! 0 = Some (s_name 0)) by reflexivity.
    assert (Ej : map s_name (seq 0 32) !! j = Some (s_name 0)).
    { rewrite list_lookup_fmap, lookup_seq_lt by lia. simpl. congruence. }
    pose proof (NoDup_lookup _ _ _ _ Hs E0 Ej). lia.
Qed.

End atoms.

(** ** The shape of the carries *)

Section shape.

Variable h : list expr -> list expr.
Hypothesis Hh : hash_ok h.

Lemma operand_filter k x :
  operand k x ->
  bool_decide (x = zero k) = false /\ bool_decide (x = identity k) = false /\
  isinstance x k = false.
Proof.
  destruct x as [| | |k' l]; simpl; try contradiction; intros Hk.
  - repeat split; apply bool_decide_eq_false_2; destruct k; discriminate.
  - repeat split; apply bool_decide_eq_false_2; try (destruct k; discriminate).
    exact Hk.
Qed.

(** Two different operands give a node with exactly these arguments. *)
Lemma LatticeOp_new_pair k x y :
  x <> y -> operand k x -> operand k y ->
  exists l, LatticeOp_new h k [x; y] = Node k l /\ l ≡ₚ [x; y].
Proof.
  intros Hne (Hx1 & Hx2 & Hx3)%operand_filter (Hy1 & Hy2 & Hy3)%operand_filter.
  unfold LatticeOp_new. simpl. rewrite Hx1, Hx2, Hx3, Hy1, Hy2, Hy3.
  unfold frozenset.
  assert (Hd : remove_dups [x; y] = [x; y]).
  { simpl. destruct (decide_rel elem_of x [y]) as [Hin|_]; [|reflexivity].
    apply list_elem_of_singleton in Hin. contradiction. }
  pose proof (Hh _ (NoDup_remove_dups [x; y])) as Hp. rewrite Hd in *.
  pose proof (Permutation_length Hp) as Hl.
  destruct (h [x; y]) as [|x' [|y' [|z l]]]; try discriminate.
  exists (ordered [x'; y']). split; [reflexivity|].
  etransitivity; [apply ordered_perm|exact Hp].
Qed.

Lemma carry_shape_operand cs i ci : carry_shape cs i ci -> operand AndCls ci.
Proof.
  destruct i as [|i]; simpl.
  - intros ->. exact I.
  - intros (_ & _ & _ & Hor & _). destruct ci as [| | |k l]; try discriminate.
    simpl in *. apply bool_decide_eq_true in Hor. subst. discriminate.
Qed.

Lemma chain_shape cs i :
  chain h 32 cs -> i < 32 -> exists ci, cs !! i = Some ci /\ carry_shape cs i ci.
Proof.
  intros (Hlen & H0 & Hrec). induction i as [|i IH]; intros Hi.
  - eexists. split; [exact H0|reflexivity].
  - destruct IH as (prev & Hprev & Hsh); [lia|].
    destruct (Hrec (S i)) as (prev' & Hprev' & Hci); [lia|].
    replace (S i - 1) with i in Hprev' by lia.
    rewrite Hprev in Hprev'. injection Hprev' as <-.
    destruct (LatticeOp_new_pair AndCls (Symbol (s_name (S i))) prev)
      as (gl & Eg & Hgl).
    { intros <-. destruct i as [|i]; simpl in Hsh.
      - vm_compute in Hsh. discriminate.
      - destruct Hsh as (_ & _ & _ & Hor & _). discriminate. }
    { exact I. }
    { eapply carry_shape_operand, Hsh. }
    destruct (LatticeOp_new_pair OrCls (Symbol (p_name (S i))) (Node AndCls gl))
      as (cl & Ec & Hcl); [discriminate|exact I|discriminate|].
    eexists. split; [exact Hci|]. simpl.
    exists prev, (Node AndCls gl). unfold Or, And. rewrite Eg, Ec.
    split; [exact Hprev|]. split; [reflexivity|]. split; [exact Hcl|].
    split; [reflexivity|exact Hgl].
Qed.

End shape.

(** ** Entries of [c] are never changed *)

Section immutable.

Variable h : list expr -> list expr.

Lemma construction_loop :
  construction h initial = for_ (range 1 32) (append_carry h) after_line_6.
Proof. reflexivity. Qed.

Lemma append_carry_grows i st st' :
  append_carry h i st = Some st' -> exists x, c st' = c st ++ [x].
Proof.
  unfold append_carry.
  destruct (p st !! i); [|discriminate]. simpl.
  destruct (s st !! i); [|discriminate]. simpl.
  destruct (c st !! (i - 1)); [|discriminate]. simpl.
  intros [= <-]. simpl. eauto.
Qed.

Lemma build_prefix xs st st' :
  for_ xs (append_carry h) st = Some st' -> c st `prefix_of` c st'.
Proof.
  apply (for_rel (fun s1 s2 => c s1 `prefix_of` c s2)).
  - intros s1. reflexivity.
  - intros s1 s2 s3 H1 H2. etransitivity; eassumption.
  - intros i s1 s2 (x & ->)%append_carry_grows. apply prefix_app_r. reflexivity.
Qed.

Lemma build_length xs st st' :
  for_ xs (append_carry h) st = Some st' ->
  length (c st') = length (c st) + length xs.
Proof.
  revert st. induction xs as [|i xs IH]; intros st; simpl.
  - intros [= <-]. lia.
  - destruct (append_carry h i st) as [s1|] eqn:E; [|discriminate].
    intros H. rewrite (IH _ H). apply append_carry_grows in E as (x & ->).
    rewrite length_app. simpl. lia.
Qed.

(** When the first loop has created [c[n]], every entry [c[i]] with
    [i <= n] already has the value it has at the end. *)
Lemma build_stable st n i ci :
  construction h initial = Some st -> i <= n <= 31 -> c st !! i = Some ci ->
  exists stn,
    for_ (range 1 (S n)) (append_carry h) after_line_6 = Some stn /\
    length (c stn) = S n /\
    c stn !! i = Some ci.
Proof.
  rewrite construction_loop. intros E Hn Hci.
  change (range 1 32) with (seq 1 31) in E.
  replace 31 with (n + (31 - n)) in E by lia.
  rewrite seq_app, for_app in E.
  unfold range. replace (S n - 1) with n by lia.
  destruct (for_ (seq 1 n) (append_carry h) after_line_6) as [stn|] eqn:En;
    [|discriminate].
  exists stn. split; [reflexivity|].
  pose proof (build_length _ _ _ En) as Hl. rewrite length_seq in Hl.
  simpl in Hl. split; [exact Hl|].
  destruct (lookup_lt_is_Some_2 (c stn) i) as [y Hy]; [lia|].
  rewrite Hy. f_equal.
  pose proof (prefix_lookup_Some _ _ _ _ Hy (build_prefix _ _ _ E)). congruence.
Qed.

Lemma print_carry_c fuel i st st' :
  print_carry h fuel i st = Some st' -> c st' = c st.
Proof.
  unfold print_carry. destruct (c st !! i); [|discriminate]. simpl.
  destruct (to_dnf h fuel _); [|discriminate]. simpl. intros [= <-]. reflexivity.
Qed.

(** The second loop leaves [c] as it is. *)
Lemma print_loop_c fuel st st' :
  print_loop h fuel st = Some st' -> c st' = c st.
Proof.
  unfold print_loop. apply (for_rel (fun s1 s2 => c s2 = c s1)).
  - intros s1. reflexivity.
  - intros s1 s2 s3 H1 H2. congruence.
  - intros i s1 s2. apply print_carry_c.
Qed.

End immutable.

(** ** Reading the printed text back *)

Lemma bexp_eqb_eq t u : bexp_eqb t u = true -> t = u.
Proof.
  revert u. induction t as [i|i|x IHx y IHy|x IHx y IHy]; intros [j|j|x' y'|x' y'];
    simpl; try discriminate.
  - intros ->%Nat.eqb_eq. reflexivity.
  - intros ->%Nat.eqb_eq. reflexivity.
  - intros [Hx Hy]%andb_true_iff. f_equal; auto.
  - intros [Hx Hy]%andb_true_iff. f_equal; auto.
Qed.

Section reading.

Variables a b : nat -> bool.

(** The expression that an expression of the library denotes has its
    value, when every atom has the value that its name reads as. *)
Lemma bits_of_eval e t :
  bits_of e = Some t -> beval a b t = eval (text_val a b) e.
Proof.
  revert t. induction e as [| |name|k l IH] using expr_ind'; intros t; simpl;
    try discriminate.
  - unfold text_val. intros ->. reflexivity.
  - destruct l as [|x l]; [discriminate|].
    apply Forall_cons in IH as [IHx IHl].
    set (go := fix go (acc : option bexp) (l : list expr) : option bexp :=
         match l with
         | [] => acc
         | y :: l' =>
             go (match acc, bits_of y with
                 | Some u, Some w =>
                     Some (match k with AndCls => BAnd u w | OrCls => BOr u w end)
                 | _, _ => None
                 end) l'
         end).
    assert (Hnone : forall l, go None l = None).
    { intros l'. induction l' as [|y l' IH']; [reflexivity|]. exact IH'. }
    assert (Hgo : forall l acc u t,
               Forall (fun e => forall t, bits_of e = Some t ->
                                          beval a b t = eval (text_val a b) e) l ->
               acc = Some u -> go acc l = Some t ->
               beval a b t =
               match k with
               | AndCls => beval a b u && forallb (eval (text_val a b)) l
               | OrCls => beval a b u || existsb (eval (text_val a b)) l
               end).
    { clear. intros l. induction l as [|y l IHl]; intros acc u t HF -> E.
      - simpl in E. injection E as <-. destruct k; simpl;
          [rewrite andb_true_r|rewrite orb_false_r]; reflexivity.
      - apply Forall_cons in HF as [Hy HF]. simpl in E.
        destruct (bits_of y) as [w|] eqn:Ew.
        + rewrite (IHl _ _ _ HF eq_refl E).
          destruct k; simpl; rewrite <- (Hy w eq_refl);
            [rewrite andb_assoc|rewrite orb_assoc]; reflexivity.
        + assert (Hn : forall l, go None l = None).
          { intros l'. induction l' as [|z l' IH']; [reflexivity|]. exact IH'. }
          rewrite Hn in E. discriminate. }
    intros E. destruct (bits_of x) as [u|] eqn:Eu.
    + rewrite (Hgo l _ u t IHl eq_refl E), (IHx u eq_refl).
      destruct k; reflexivity.
    + rewrite Hnone in E. discriminate.
Qed.

(** The names of the atoms read as the conjunction and the disjunction of
    the two bits of their index. *)
Lemma text_val_p j : j < 32 -> text_val a b (p_name j) = a j && b j.
Proof.
  intros Hj. do 32 (destruct j as [|j]; [vm_compute; reflexivity|]). lia.
Qed.

Lemma text_val_s j : j < 32 -> text_val a b (s_name j) = a j || b j.
Proof.
  intros Hj. do 32 (destruct j as [|j]; [vm_compute; reflexivity|]). lia.
Qed.

End reading.

Section reading_chain.

Variables a b : nat -> bool.
Variable h : list expr -> list expr.
Hypothesis Hh : hash_ok h.

(** With the atoms read from their names, the carries built by the script
    compute the carries of the adder. *)
Lemma eval_chain_text cs i :
  chain h 32 cs -> i < 32 ->
  exists ci, cs !! i = Some ci /\ eval (text_val a b) ci = carry a b i.
Proof.
  intros (Hlen & H0 & Hrec). induction i as [|i IH]; intros Hi.
  - eexists. split; [exact H0|]. simpl. apply (text_val_p a b 0). lia.
  - destruct IH as (prev & Hprev & Hev); [lia|].
    destruct (Hrec (S i)) as (prev' & Hprev' & Hci); [lia|].
    replace (S i - 1) with i in Hprev' by lia.
    rewrite Hprev in Hprev'. injection Hprev' as <-.
    eexists. split; [exact Hci|].
    rewrite (eval_Or _ h Hh). simpl existsb. rewrite (eval_And _ h Hh).
    simpl. rewrite text_val_p, text_val_s, Hev by lia.
    rewrite andb_true_r, orb_false_r. reflexivity.
Qed.

End reading_chain.

(** With the members of every set taken in insertion order and a recursion
    depth of [depth], the printed text of every normal form reads back as
    the expression that the normal form denotes. *)
Lemma text_check_ok :
  exists st ds,
    construction insertion_order initial = Some st /\
    mapM (to_dnf insertion_order depth) (c st) = Some ds /\
    text_check ds = true.
Proof.
  apply (option_check (construction insertion_order initial)
                      (fun st => mapM (to_dnf insertion_order depth) (c st)) text_check).
  vm_compute. reflexivity.
Qed.

Section read_back.

Variable h : list expr -> list expr.
Hypothesis Hh : hash_ok h.
Variable fuel : nat.
Hypothesis Hfuel : depth <= fuel.

(** The text printed for a carry, read back, has the value of its normal
    form. *)
Lemma sstr_read_back st i ci d (a b : nat -> bool) :
  construction h initial = Some st ->
  c st !! i = Some ci ->
  to_dnf h fuel ci = Some d ->
  read_text a b (sstr d) = Some (eval (text_val a b) d).
Proof.
  intros E Hci Hd.
  destruct text_check_ok as (st' & ds & E' & Em & Hck).
  rewrite <- (construction_hash h Hh), E in E'. injection E' as <-.
  apply mapM_Some in Em.
  destruct (Forall2_lookup_l _ _ _ _ _ Em Hci) as (d' & Hd' & Hdnf).
  simpl in Hdnf.
  assert (d' = d) as ->.
  { rewrite (to_dnf_hash h Hh) in Hd.
    apply (to_dnf_mono _ _ fuel) in Hdnf; [congruence|exact Hfuel]. }
  unfold text_check in Hck. rewrite forallb_forall in Hck.
  specialize (Hck d (proj1 (list_elem_of_In _ _) (list_elem_of_lookup_2 _ _ _ Hd'))).
  unfold read_text.
  destruct (parse_text (sstr d)) as [t|]; [|discriminate].
  destruct (bits_of d) as [u|] eqn:Eu; [|discriminate].
  apply bexp_eqb_eq in Hck as ->. simpl. f_equal. apply bits_of_eval, Eu.
Qed.

End read_back.

(** * The claims *)

(** C1: after lines 4 to 8, [c[0]] is [p[0]] and, for every [i] from 1 to
    31, [c[i]] is [Or(p[i], And(s[i], c[i-1]))], where [p[i]] and [s[i]]
    are the symbols created for index [i]. *)
Theorem C1_carry_recurrence (h : list expr -> list expr) (i : nat) :
  1 <= i <= 31 ->
  exists st pi si prev,
    construction h initial = Some st /\
    c st !! 0 = p st !! 0 /\
    p st !! i = Some pi /\ pi = Symbol (p_name i) /\
    s st !! i = Some si /\ si = Symbol (s_name i) /\
    c st !! (i - 1) = Some prev /\
    c st !! i = Some (Or h [pi; And h [si; prev]]).
Proof.
  intros Hi.
  destruct (construction_spec h initial) as (st & E & Hp & Hs & _ & _ & H0 & Hrec).
  destruct (Hrec i) as (prev & Hprev & Hci); [lia|].
  exists st, (Symbol (p_name i)), (Symbol (s_name i)), prev.
  rewrite Hp, Hs, H0, !p_list_lookup, s_list_lookup by lia. auto 10.
Qed.

Lemma C1_carry_recurrence_witness :
  exists st prev,
    construction insertion_order initial = Some st /\
    c st !! 30 = Some prev /\
    c st !! 31 =
      Some (Or insertion_order
               [Symbol (p_name 31);
                And insertion_order [Symbol (s_name 31); prev]]).
Proof.
  destruct (C1_carry_recurrence insertion_order 31)
    as (st & pi & si & prev & E & _ & _ & -> & _ & -> & Hprev & Hc); [lia|].
  exists st, prev. auto.
Defined.

(** C2: a run writes exactly 32 lines, each followed by a line
    terminator and nothing else, one per index [i] from 0 to 31 in that
    order, and line [i] is made of four spaces, ["assign c["], the decimal
    index, ["] = "], the rendering of the normal form of [c[i]], and
    [";"]. *)
Theorem C2_output_lines (h : list expr -> list expr) (fuel : nat) :
  hash_ok h -> depth <= fuel ->
  exists st,
    main h fuel = Some st /\
    stdout st = printed (splitlines (stdout st)) /\
    length (splitlines (stdout st)) = 32 /\
    forall i, i < 32 ->
      exists ci d,
        c st !! i = Some ci /\ to_dnf h fuel ci = Some d /\
        splitlines (stdout st) !! i =
          Some ("    assign c[" +:+ str_int i +:+ "] = " +:+ sstr d +:+ ";").
Proof.
  intros Hh Hfuel.
  destruct (run_spec h Hh fuel Hfuel)
    as (st1 & st & ds & _ & _ & _ & _ & Hc & E & _ & _ & Hcs & HF & Hl & Ho & Hs & _).
  exists st. split; [exact E|]. rewrite Hs, length_imap. split; [exact Ho|].
  split; [exact Hl|]. intros i Hi.
  destruct (lookup_lt_is_Some_2 (c st1) i) as [ci Hci]; [destruct Hc; lia|].
  destruct (Forall2_lookup_l _ _ _ _ _ HF Hci) as (d & Hd & Hdnf).
  exists ci, d. rewrite Hcs, list_lookup_imap, Hd. auto.
Qed.

Lemma C2_output_lines_witness :
  exists st,
    main insertion_order 40 = Some st /\
    length (splitlines (stdout st)) = 32.
Proof.
  destruct (C2_output_lines insertion_order 40) as (st & E & _ & Hl & _).
  - exact insertion_order_ok.
  - unfold depth. lia.
  - exists st. auto.
Defined.

(** C3: the 32 lines come in index order: the line at position [i] is the
    one printed for index [i], it contains ["c[i]"] right after
    ["    assign "], and different positions carry different indices. *)
Theorem C3_lines_in_index_order (h : list expr -> list expr) (fuel i : nat) :
  hash_ok h -> depth <= fuel -> i < 32 ->
  exists st ln rest,
    main h fuel = Some st /\
    length (splitlines (stdout st)) = 32 /\
    splitlines (stdout st) !! i = Some ln /\
    ln = "    assign " +:+ ("c[" +:+ str_int i +:+ "]") +:+ rest /\
    forall j, j < 32 -> j <> i ->
      exists ln' rest',
        splitlines (stdout st) !! j = Some ln' /\
        ln' = "    assign " +:+ ("c[" +:+ str_int j +:+ "]") +:+ rest' /\
        str_int j <> str_int i.
Proof.
  intros Hh Hfuel Hi.
  destruct (run_spec h Hh fuel Hfuel)
    as (st1 & st & ds & _ & _ & _ & _ & _ & E & _ & _ & _ & _ & Hl & _ & Hs & _).
  assert (Hline : forall k, k < 32 -> exists d,
             splitlines (stdout st) !! k = Some (line k d)).
  { intros k Hk. destruct (lookup_lt_is_Some_2 ds k) as [d Hd]; [lia|].
    exists d. rewrite Hs, list_lookup_imap, Hd. reflexivity. }
  destruct (Hline i Hi) as (d & Hd).
  exists st, (line i d), (" = " +:+ sstr d +:+ ";").
  split; [exact E|]. split; [rewrite Hs, length_imap; exact Hl|].
  split; [exact Hd|]. split; [apply line_index|].
  intros j Hj Hne. destruct (Hline j Hj) as (d' & Hd').
  exists (line j d'), (" = " +:+ sstr d' +:+ ";").
  split; [exact Hd'|]. split; [apply line_index|].
  intros Heq. apply Hne, str_int_inj, Heq.
Qed.

Lemma C3_lines_in_index_order_witness :
  exists st rest,
    main insertion_order 32 = Some st /\
    splitlines (stdout st) !! 7 = Some ("    assign c[7]" +:+ rest).
Proof.
  destruct (C3_lines_in_index_order insertion_order 32 7)
    as (st & ln & rest & E & _ & Hln & -> & _).
  - exact insertion_order_ok.
  - unfold depth. lia.
  - lia.
  - exists st, rest. split; [exact E|exact Hln].
Defined.

(** C4: for [0 < i < 32], the text of the normal form printed on line
    [i], read back as an expression over the bits [a[j]] and [b[j]] (so
    that the text of [p[j]] reads as [a[j] & b[j]] and the text of [s[j]]
    as [a[j] | b[j]]), has for all input words the value of
    [(a[i] & b[i]) | ((a[i] | b[i]) & c[i-1])], where [c[i-1]] is the carry
    of the recurrence, which is also the value read back from the text
    printed on line [i-1].  The normal form itself, evaluated with the
    atoms looked up by name, has the same value. *)
Theorem C4_dnf_preserves_recurrence
    (h : list expr -> list expr) (fuel i : nat) (a b : nat -> bool) :
  hash_ok h -> depth <= fuel -> 0 < i < 32 ->
  exists st ci d dprev,
    main h fuel = Some st /\
    c st !! i = Some ci /\
    to_dnf h fuel ci = Some d /\
    is_dnf d = true /\
    splitlines (stdout st) !! i =
      Some ("    assign c[" +:+ str_int i +:+ "] = " +:+ sstr d +:+ ";") /\
    splitlines (stdout st) !! (i - 1) =
      Some ("    assign c[" +:+ str_int (i - 1) +:+ "] = " +:+ sstr dprev +:+ ";") /\
    read_text a b (sstr dprev) = Some (carry a b (i - 1)) /\
    read_text a b (sstr d) =
      Some ((a i && b i) || ((a i || b i) && carry a b (i - 1))) /\
    eval (atom_val a b) dprev = carry a b (i - 1) /\
    eval (atom_val a b) d =
      (a i && b i) || ((a i || b i) && eval (atom_val a b) dprev).
Proof.
  intros Hh Hfuel Hi.
  destruct (run_spec h Hh fuel Hfuel)
    as (st1 & st & ds & E1 & _ & _ & _ & Hc & E & _ & _ & Hcs & HF & Hl & _ & Hs & Hcf).
  destruct (eval_chain a b h Hh (c st1) i Hc) as (ci & Hci & Hev); [lia|].
  destruct (eval_chain a b h Hh (c st1) (i - 1) Hc) as (cp & Hcp & Hevp); [lia|].
  destruct (eval_chain_text a b h Hh (c st1) i Hc) as (ci' & Hci' & Hevt); [lia|].
  destruct (eval_chain_text a b h Hh (c st1) (i - 1) Hc) as (cp' & Hcp' & Hevtp); [lia|].
  rewrite Hci in Hci'. injection Hci' as <-.
  rewrite Hcp in Hcp'. injection Hcp' as <-.
  destruct (Forall2_lookup_l _ _ _ _ _ HF Hci) as (d & Hd & Hdnf).
  destruct (Forall2_lookup_l _ _ _ _ _ HF Hcp) as (dprev & Hdp & Hdnfp).
  exists st, ci, d, dprev. split; [exact E|]. split; [rewrite Hcs; exact Hci|].
  split; [exact Hdnf|].
  split; [apply (closed_form_check_spec i d), Hcf, Hd|].
  split; [rewrite Hs, list_lookup_imap, Hd; reflexivity|].
  split; [rewrite Hs, list_lookup_imap, Hdp; reflexivity|].
  split.
  { rewrite (sstr_read_back h Hh fuel Hfuel st1 (i - 1) cp dprev a b E1 Hcp Hdnfp).
    rewrite (to_dnf_eval _ h Hh fuel cp dprev Hdnfp), Hevtp. reflexivity. }
  split.
  { rewrite (sstr_read_back h Hh fuel Hfuel st1 i ci d a b E1 Hci Hdnf).
    rewrite (to_dnf_eval _ h Hh fuel ci d Hdnf), Hevt.
    destruct i as [|i]; [lia|]. simpl. rewrite Nat.sub_0_r. reflexivity. }
  rewrite (to_dnf_eval _ h Hh fuel ci d Hdnf), Hev.
  rewrite (to_dnf_eval _ h Hh fuel cp dprev Hdnfp), Hevp.
  split; [reflexivity|].
  destruct i as [|i]; [lia|]. simpl. rewrite Nat.sub_0_r. reflexivity.
Qed.

Lemma C4_dnf_preserves_recurrence_witness :
  exists st d,
    main insertion_order 32 = Some st /\
    splitlines (stdout st) !! 3 =
      Some ("    assign c[3] = " +:+ sstr d +:+ ";") /\
    read_text (fun j => bool_decide (j = 0)) (fun j => bool_decide (j <> 3)) (sstr d)
    = Some false.
Proof.
  destruct (C4_dnf_preserves_recurrence insertion_order 32 3
              (fun j => bool_decide (j = 0)) (fun j => bool_decide (j <> 3)))
    as (st & ci & d & dprev & E & Hci & Hd & _ & Hln & _ & _ & Hrd & _).
  - exact insertion_order_ok.
  - unfold depth. lia.
  - lia.
  - exists st, d. split; [exact E|]. split; [exact Hln|]. exact Hrd.
Defined.

(** C5: the first line is ["    assign c[0] = (a[0] & b[0]);"]: its
    expression is a normal form whose text, read back as an expression
    over the bits, has the value of [a[0] & b[0]] for all inputs; and the
    last of the 32 lines is ["    assign c[31] = ...;"]. *)
Theorem C5_first_and_last_line (h : list expr -> list expr) (fuel : nat) :
  hash_ok h -> depth <= fuel ->
  exists st d0 d31,
    main h fuel = Some st /\
    head (splitlines (stdout st)) =
      Some ("    assign c[0] = " +:+ sstr d0 +:+ ";") /\
    sstr d0 = "(a[0] & b[0])" /\
    is_dnf d0 = true /\
    (forall a b : nat -> bool, read_text a b (sstr d0) = Some (a 0 && b 0)) /\
    (forall a b : nat -> bool, eval (atom_val a b) d0 = a 0 && b 0) /\
    last (splitlines (stdout st)) =
      Some ("    assign c[31] = " +:+ sstr d31 +:+ ";") /\
    length (splitlines (stdout st)) = 32.
Proof.
  intros Hh Hfuel.
  destruct (run_spec h Hh fuel Hfuel)
    as (st1 & st & ds & E1 & _ & _ & _ & Hc & E & _ & _ & Hcs & HF & Hl & _ & Hs & Hcf).
  destruct (lookup_lt_is_Some_2 ds 0) as [d0 Hd0]; [lia|].
  destruct (lookup_lt_is_Some_2 ds 31) as [d31 Hd31]; [lia|].
  destruct (Forall2_lookup_r _ _ _ _ _ HF Hd0) as (c0 & Hc0 & Hdnf).
  exists st, d0, d31. split; [exact E|]. rewrite Hs.
  split; [rewrite head_lookup, list_lookup_imap, Hd0; reflexivity|].
  split.
  { destruct Hc as (_ & H0 & _). rewrite Hc0 in H0. injection H0 as ->.
    injection Hdnf as <-. reflexivity. }
  split; [apply (closed_form_check_spec 0 d0), Hcf, Hd0|].
  split.
  { intros a b.
    destruct (eval_chain_text a b h Hh (c st1) 0 Hc) as (c0' & Hc0' & Hev); [lia|].
    rewrite Hc0 in Hc0'. injection Hc0' as <-.
    rewrite (sstr_read_back h Hh fuel Hfuel st1 0 c0 d0 a b E1 Hc0 Hdnf).
    rewrite (to_dnf_eval _ h Hh fuel c0 d0 Hdnf), Hev. reflexivity. }
  split.
  - intros a b.
    destruct (eval_chain a b h Hh (c st1) 0 Hc) as (c0' & Hc0' & Hev); [lia|].
    rewrite Hc0 in Hc0'. injection Hc0' as <-.
    rewrite (to_dnf_eval _ h Hh fuel c0 d0 Hdnf). exact Hev.
  - rewrite last_lookup, length_imap, Hl. simpl.
    rewrite list_lookup_imap, Hd31. auto.
Qed.

Lemma C5_first_and_last_line_witness :
  exists st,
    main (@rev expr) 33 = Some st /\
    head (splitlines (stdout st)) = Some "    assign c[0] = (a[0] & b[0]);" /\
    read_text (fun _ => true) (fun _ => true) "(a[0] & b[0])" = Some true.
Proof.
  destruct (C5_first_and_last_line (@rev expr) 33)
    as (st & d0 & d31 & E & Hh & Ht & _ & Hev & _).
  - exact rev_ok.
  - unfold depth. lia.
  - rewrite Ht in Hh, Hev. exists st. split; [exact E|]. split; [exact Hh|].
    exact (Hev (fun _ => true) (fun _ => true)).
Defined.

(** C6: the sequence of carries has exactly 32 entries; [c[i]] mentions no
    other atom than [p[0..i]] and [s[1..i]], and never [s[0]]; its
    structure is [p[0]] for [i = 0] and otherwise a disjunction of [p[i]]
    with a conjunction of [s[i]] and the entry [c[i-1]]; and an entry
    keeps the value it was created with: it is the same after every
    later iteration of the first loop and after the second loop. *)
Theorem C6_carry_sequence_invariant (h : list expr -> list expr) (i : nat) :
  hash_ok h -> i < 32 ->
  exists st ci,
    construction h initial = Some st /\
    length (c st) = 32 /\
    c st !! i = Some ci /\
    (forall x, x ∈ atoms ci ->
               x ∈ map p_name (seq 0 (S i)) ++ map s_name (seq 1 i)) /\
    (s_name 0 ∉ atoms ci) /\
    carry_shape (c st) i ci /\
    assign_c (assign_s (assign_p initial)) = Some after_line_6 /\
    (forall n, i <= n <= 31 ->
       exists stn,
         for_ (range 1 (S n)) (append_carry h) after_line_6 = Some stn /\
         length (c stn) = S n /\
         c stn !! i = Some ci) /\
    (forall fuel st',
       print_loop h fuel st = Some st' -> c st' = c st /\ c st' !! i = Some ci).
Proof.
  intros Hh Hi.
  destruct (construction_spec h initial) as (st & E & _ & _ & _ & Hc).
  destruct (chain_shape h Hh (c st) i Hc Hi) as (ci & Hci & Hsh).
  exists st, ci. split; [exact E|]. split; [apply Hc|]. split; [exact Hci|].
  split; [intros x Hx; exact (atoms_chain h Hh _ _ _ _ Hc Hi Hci Hx)|].
  split.
  { intros Hx. apply (s0_not_allowed i Hi).
    exact (atoms_chain h Hh _ _ _ _ Hc Hi Hci Hx). }
  split; [exact Hsh|]. split; [reflexivity|]. split.
  - intros n Hn. exact (build_stable h st n i ci E Hn Hci).
  - intros fuel st' Hp. apply print_loop_c in Hp. rewrite Hp. auto.
Qed.

Lemma C6_carry_sequence_invariant_witness :
  exists st ci,
    construction (@rev expr) initial = Some st /\
    c st !! 5 = Some ci /\
    s_name 0 ∉ atoms ci.
Proof.
  destruct (C6_carry_sequence_invariant (@rev expr) 5)
    as (st & ci & E & _ & Hci & _ & Hs0 & _).
  - exact rev_ok.
  - lia.
  - exists st, ci. auto.
Defined.

(** C7: the output of a run does not depend on anything that may change
    from one run to the next: neither on the order in which the library's
    hash sets enumerate their members, nor on the recursion depth
    available, as long as the run comes to an end.  Two runs end in the
    same state, so their output texts are identical. *)
Theorem C7_deterministic_output
    (h1 h2 : list expr -> list expr) (fuel1 fuel2 : nat) (st1 st2 : state) :
  hash_ok h1 -> hash_ok h2 ->
  main h1 fuel1 = Some st1 -> main h2 fuel2 = Some st2 ->
  stdout st1 = stdout st2 /\ st1 = st2.
Proof.
  intros Hh1 Hh2 E1 E2.
  rewrite (main_hash h1 Hh1) in E1. rewrite (main_hash h2 Hh2) in E2.
  apply (main_mono _ _ (Nat.max fuel1 fuel2)) in E1; [|lia].
  apply (main_mono _ _ (Nat.max fuel1 fuel2)) in E2; [|lia].
  assert (st1 = st2) by congruence. subst. auto.
Qed.

Lemma C7_deterministic_output_witness :
  exists st1 st2,
    main insertion_order 32 = Some st1 /\
    main (@rev expr) 40 = Some st2 /\
    stdout st1 = stdout st2.
Proof.
  destruct (run_spec insertion_order insertion_order_ok 32)
    as (_ & st1 & _ & _ & _ & _ & _ & _ & E1 & _); [unfold depth; lia|].
  destruct (run_spec (@rev expr) rev_ok 40)
    as (_ & st2 & _ & _ & _ & _ & _ & _ & E2 & _); [unfold depth; lia|].
  exists st1, st2. split; [exact E1|]. split; [exact E2|].
  apply (C7_deterministic_output insertion_order (@rev expr) 32 40 st1 st2
           insertion_order_ok rev_ok E1 E2).
Defined.

(** C8: the construction phase (lines 4 to 8) always succeeds, whatever
    the state it starts from and whatever the hash order of the library's
    sets; it builds 32 entries in each of [p], [s] and [c] and writes
    nothing to standard output. *)
Theorem C8_construction_total (h : list expr -> list expr) (st0 : state) :
  exists st,
    construction h st0 = Some st /\
    length (p st) = 32 /\ length (s st) = 32 /\ length (c st) = 32 /\
    stdout st = stdout st0.
Proof.
  destruct (construction_spec h st0) as (st & E & Hp & Hs & Ho & Hl & _).
  exists st. rewrite Hp, Hs. auto.
Qed.

(** C9: [to_dnf] comes to an end and returns a result on every
    expression, given a recursion depth above the weight of the
    expression; on the 32 carries a depth of [depth] is enough, so the
    whole run comes to an end with a normal form for every carry. *)
Theorem C9_run_terminates (h : list expr -> list expr) (fuel : nat) :
  hash_ok h -> depth <= fuel ->
  (forall e, weight e < fuel -> exists d, to_dnf h fuel e = Some d) /\
  exists st,
    main h fuel = Some st /\
    forall i, i < 32 ->
      exists ci d, c st !! i = Some ci /\ to_dnf h fuel ci = Some d.
Proof.
  intros Hh Hfuel. split.
  - intros e He. destruct (to_dnf_terminates h Hh e) as [d Hd].
    exists d. eapply to_dnf_mono; [|exact Hd]. lia.
  - destruct (run_spec h Hh fuel Hfuel)
      as (st1 & st & ds & _ & _ & _ & _ & Hc & E & _ & _ & Hcs & HF & _).
    exists st. split; [exact E|]. intros i Hi.
    destruct (lookup_lt_is_Some_2 (c st1) i) as [ci Hci]; [destruct Hc; lia|].
    destruct (Forall2_lookup_l _ _ _ _ _ HF Hci) as (d & _ & Hdnf).
    exists ci, d. rewrite Hcs. auto.
Qed.

Lemma C9_run_terminates_witness :
  exists st d,
    main insertion_order 32 = Some st /\
    to_dnf insertion_order 32
      (Node AndCls [Node OrCls [Sym "x"; Sym "y"]; Node OrCls [Sym "z"; Sym "w"]])
    = Some d.
Proof.
  destruct (C9_run_terminates insertion_order 32 insertion_order_ok)
    as (Ht & st & E & _); [unfold depth; lia|].
  destruct (Ht (Node AndCls [Node OrCls [Sym "x"; Sym "y"];
                             Node OrCls [Sym "z"; Sym "w"]])) as (d & Hd).
  - simpl. lia.
  - exists st, d. auto.
Defined.

(** C10: for every [i < 32], [c[i]] and its normal form have the value of
    the disjunction over [j = 0..i] of [p[j] & s[j+1] & ... & s[i]]; the
    normal form has exactly [i + 1] disjuncts, and the disjunct for [j]
    is a conjunction of [p[j]] with the [i - j] distinct atoms
    [s[j+1..i]]. *)
Theorem C10_closed_form (h : list expr -> list expr) (fuel i : nat) :
  hash_ok h -> depth <= fuel -> i < 32 ->
  exists st ci d,
    main h fuel = Some st /\
    c st !! i = Some ci /\
    to_dnf h fuel ci = Some d /\
    (forall v,
        eval v ci =
        existsb (fun j => forallb (eval v) (closed_clause i j)) (seq 0 (S i))) /\
    (forall v, eval v d = eval v ci) /\
    is_dnf d = true /\
    length (disjuncts d) = i + 1 /\
    forall j, j <= i ->
      exists cl,
        disjuncts d !! (i - j) = Some cl /\
        literals cl ≡ₚ closed_clause i j /\
        NoDup (literals cl) /\
        length (literals cl) = 1 + (i - j) /\
        closed_clause i j =
          Symbol (p_name j) :: map (fun k => Symbol (s_name k)) (seq (j + 1) (i - j)).
Proof.
  intros Hh Hfuel Hi.
  destruct (run_spec h Hh fuel Hfuel)
    as (st1 & st & ds & _ & _ & _ & _ & Hc & E & _ & _ & Hcs & HF & Hl & _ & Hs & Hcf).
  destruct (lookup_lt_is_Some_2 ds i) as [d Hd]; [lia|].
  destruct (Forall2_lookup_r _ _ _ _ _ HF Hd) as (ci & Hci & Hdnf).
  pose proof (Hcf i d Hd) as Hck.
  destruct (closed_form_check_spec i d Hck) as (Hdn & Hlen & Hcl).
  exists st, ci, d. split; [exact E|]. split; [rewrite Hcs; exact Hci|].
  split; [exact Hdnf|]. split.
  { intros v. rewrite <- (to_dnf_eval v h Hh fuel ci d Hdnf).
    apply closed_form_eval, Hck. }
  split; [intros v; apply (to_dnf_eval v h Hh fuel ci d Hdnf)|].
  split; [exact Hdn|]. split; [lia|].
  intros j Hj. destruct (Hcl j Hj) as (Hnd & cl & Hk & Hlit).
  exists cl. split; [exact Hk|].
  assert (Hp : literals cl ≡ₚ closed_clause i j) by (rewrite Hlit; apply ordered_perm).
  split; [exact Hp|]. split; [rewrite Hp; exact Hnd|].
  split; [rewrite Hp; unfold closed_clause; simpl; rewrite length_map, length_seq; reflexivity|].
  unfold closed_clause. rewrite Nat.add_1_r. reflexivity.
Qed.

Lemma C10_closed_form_witness :
  exists st ci d,
    main insertion_order 32 = Some st /\
    c st !! 31 = Some ci /\
    to_dnf insertion_order 32 ci = Some d /\
    length (disjuncts d) = 32.
Proof.
  destruct (C10_closed_form insertion_order 32 31)
    as (st & ci & d & E & Hci & Hd & _ & _ & _ & Hlen & _).
  - exact insertion_order_ok.
  - unfold depth. lia.
  - lia.
  - exists st, ci, d. auto.
Defined.

(** * Further properties of the script *)

(** ** The carries of an adder *)

Section adder.

Variables a b : nat -> bool.

Lemma word_value_bound (w : nat -> bool) n : word_value w n < 2 ^ n.
Proof.
  induction n as [|n IH]; simpl; [lia|].
  destruct (w n); lia.
Qed.

(** The carry of the recurrence is the overflow of the addition of the
    low bits. *)
Lemma carry_overflow i :
  carry a b i = (2 ^ S i <=? word_value a (S i) + word_value b (S i))%nat.
Proof.
  induction i as [|i IH].
  - simpl. destruct (a 0), (b 0); reflexivity.
  - change (carry a b (S i))
      with ((a (S i) && b (S i)) || ((a (S i) || b (S i)) && carry a b i)).
    rewrite IH.
    change (word_value a (S (S i)))
      with (word_value a (S i) + (if a (S i) then 2 ^ S i else 0)).
    change (word_value b (S (S i)))
      with (word_value b (S i) + (if b (S i) then 2 ^ S i else 0)).
    pose proof (word_value_bound a (S i)) as Ha.
    pose proof (word_value_bound b (S i)) as Hb.
    rewrite (Nat.pow_succ_r' 2 (S i)).
    generalize dependent (word_value a (S i)).
    generalize dependent (word_value b (S i)).
    generalize (2 ^ S i). intros P B Hb A IH' Ha.
    destruct (a (S i)), (b (S i)); simpl;
      destruct (Nat.leb_spec P (A + B));
      match goal with |- _ = (?x <=? ?y)%nat => destruct (Nat.leb_spec x y) end;
      try reflexivity; lia.
Qed.



End adder.

(** ** The names of the atoms *)

Section names.

Lemma string_of_uint_no_close d : no_close (NilEmpty.string_of_uint d) = true.
Proof. induction d; simpl; auto. Qed.

Lemma str_int_no_close i : no_close (str_int i) = true.
Proof. apply string_of_uint_no_close. Qed.

Lemma split_at_close x y r r' :
  no_close x = true -> no_close y = true ->
  x +:+ String "]" r = y +:+ String "]" r' -> x = y /\ r = r'.
Proof.
  revert y. induction x as [|ch x IH]; intros [|ch' y]; simpl.
  - intros _ _ [= <-]. auto.
  - intros _ [Hc _]%andb_true_iff. intros [= <- _].
    rewrite Ascii.eqb_refl in Hc. discriminate.
  - intros [Hc _]%andb_true_iff _. intros [= -> _].
    rewrite Ascii.eqb_refl in Hc. discriminate.
  - intros [_ Hx]%andb_true_iff [_ Hy]%andb_true_iff.
    change (String ch (x +:+ String "]" r) = String ch' (y +:+ String "]" r') ->
            String ch x = String ch' y /\ r = r').
    intros [= <- H]. destruct (IH y Hx Hy H) as [<- <-]. auto.
Qed.

Lemma name_split (op : string) i j :
  "(a[" +:+ str_int i +:+ "]" +:+ op +:+ str_int i +:+ "])" =
  "(a[" +:+ str_int j +:+ "]" +:+ op +:+ str_int j +:+ "])" -> i = j.
Proof.
  intros H. apply (String.app_inj "(a[") in H.
  apply split_at_close in H as [H _]; auto using str_int_no_close.
  apply str_int_inj, H.
Qed.

Lemma p_name_inj i j : p_name i = p_name j -> i = j.
Proof. apply (name_split " & b["). Qed.

Lemma s_name_inj i j : s_name i = s_name j -> i = j.
Proof. apply (name_split " | b["). Qed.

Lemma p_name_not_s_name i j : p_name i <> s_name j.
Proof.
  unfold p_name, s_name. intros H. apply (String.app_inj "(a[") in H.
  apply (split_at_close _ _ (" & b[" +:+ str_int i +:+ "])")
           (" | b[" +:+ str_int j +:+ "])")) in H as [_ H];
    auto using str_int_no_close.
  discriminate.
Qed.

End names.

(** ** Sizes *)

Section sizes.

Lemma list_sum_Permutation (l l' : list nat) : l ≡ₚ l' -> list_sum l = list_sum l'.
Proof. induction 1; simpl; lia. Qed.

Lemma _node_count_isinstance e k :
  isinstance e k = true ->
  _node_count e = S (list_sum (map _node_count (args_of e))).
Proof. destruct e; simpl; try discriminate. reflexivity. Qed.

Lemma _node_count_pair e k x y :
  isinstance e k = true -> args_of e ≡ₚ [x; y] ->
  _node_count e = S (_node_count x + _node_count y).
Proof.
  intros He Hp. rewrite (_node_count_isinstance e k He).
  rewrite (list_sum_Permutation _ (map _node_count [x; y]))
    by (apply Permutation_map, Hp).
  simpl. lia.
Qed.

Variable h : list expr -> list expr.
Hypothesis Hh : hash_ok h.

(** The carry [c[i]] as built has [4 i + 1] nodes. *)
Lemma chain_node_count cs i ci :
  chain h 32 cs -> i < 32 -> cs !! i = Some ci -> _node_count ci = 4 * i + 1.
Proof.
  intros Hc. revert ci. induction i as [|i IH]; intros ci Hi Hci.
  - destruct Hc as (_ & H0 & _). rewrite H0 in Hci. injection Hci as <-. reflexivity.
  - destruct (chain_shape h Hh cs (S i) Hc Hi) as (ci' & Hci' & Hsh).
    rewrite Hci in Hci'. injection Hci' as <-.
    destruct Hsh as (prev & g & Hprev & Hor & Hargs & Hand & Hgargs).
    rewrite (_node_count_pair _ _ _ _ Hor Hargs).
    rewrite (_node_count_pair _ _ _ _ Hand Hgargs).
    rewrite (IH prev) by (lia || exact Hprev). simpl. lia.
Qed.

Lemma list_sum_seq_1 n : 2 * list_sum (seq 1 n) = n * (n + 1).
Proof.
  induction n as [|n IH]; [reflexivity|].
  rewrite seq_S, list_sum_app. simpl list_sum. lia.
Qed.

(** A normal form with the closed form for index [i] has
    [(i + 1) (i + 2) / 2] atom occurrences. *)
Lemma closed_form_literal_count i d :
  closed_form_check i d = true -> 2 * literal_count d = (i + 1) * (i + 2).
Proof.
  intros (_ & Hlen & Hcl)%closed_form_check_spec. unfold literal_count.
  replace (map (fun cl => length (literals cl)) (disjuncts d)) with (seq 1 (S i)).
  { rewrite list_sum_seq_1. lia. }
  apply list_eq. intros k. rewrite list_lookup_fmap.
  destruct (decide (k < S i)) as [Hk|Hk].
  - rewrite lookup_seq_lt by lia.
    destruct (Hcl (i - k)) as (_ & cl & Hd & Hlit); [lia|].
    replace (i - (i - k)) with k in Hd by lia. rewrite Hd. simpl. f_equal.
    rewrite Hlit, (Permutation_length (ordered_perm _)).
    unfold closed_clause. simpl. rewrite length_map, length_seq. lia.
  - rewrite lookup_seq_ge by lia. rewrite lookup_ge_None_2 by lia. reflexivity.
Qed.

End sizes.

(** X1: for every [i < 32], the carry [c[i]] and the normal form printed
    on line [i], read with [p[j]] as [a[j] & b[j]] and [s[j]] as
    [a[j] | b[j]], are true exactly when the addition of the [i + 1] low
    bits of the two words overflows, that is, when there is a carry out
    of bit [i]. *)
Theorem X1_carry_is_overflow (h : list expr -> list expr) (fuel i : nat) :
  hash_ok h -> depth <= fuel -> i < 32 ->
  exists st ci d,
    main h fuel = Some st /\
    c st !! i = Some ci /\
    to_dnf h fuel ci = Some d /\
    splitlines (stdout st) !! i =
      Some ("    assign c[" +:+ str_int i +:+ "] = " +:+ sstr d +:+ ";") /\
    forall a b : nat -> bool,
      (eval (atom_val a b) ci = true <->
       2 ^ (i + 1) <= word_value a (i + 1) + word_value b (i + 1)) /\
      (eval (atom_val a b) d = true <->
       2 ^ (i + 1) <= word_value a (i + 1) + word_value b (i + 1)).
Proof.
  intros Hh Hfuel Hi.
  destruct (run_spec h Hh fuel Hfuel)
    as (st1 & st & ds & _ & _ & _ & _ & Hc & E & _ & _ & Hcs & HF & Hl & _ & Hs & _).
  destruct (lookup_lt_is_Some_2 ds i) as [d Hd]; [lia|].
  destruct (Forall2_lookup_r _ _ _ _ _ HF Hd) as (ci & Hci & Hdnf).
  exists st, ci, d. split; [exact E|]. split; [rewrite Hcs; exact Hci|].
  split; [exact Hdnf|].
  split; [rewrite Hs, list_lookup_imap, Hd; reflexivity|].
  intros a b.
  destruct (eval_chain a b h Hh (c st1) i Hc Hi) as (ci' & Hci' & Hev).
  rewrite Hci in Hci'. injection Hci' as <-.
  rewrite (to_dnf_eval _ h Hh fuel ci d Hdnf), Hev, carry_overflow.
  rewrite Nat.add_1_r, Nat.leb_le. split; reflexivity.
Qed.

Lemma X1_carry_is_overflow_witness :
  exists st d,
    main insertion_order 32 = Some st /\
    splitlines (stdout st) !! 1 = Some ("    assign c[1] = " +:+ sstr d +:+ ";") /\
    eval (atom_val (fun k => bool_decide (k = 1)) (fun _ => true)) d = true.
Proof.
  destruct (X1_carry_is_overflow insertion_order 32 1)
    as (st & ci & d & E & _ & _ & Hln & Hev).
  - exact insertion_order_ok.
  - unfold depth. lia.
  - lia.
  - exists st, d. split; [exact E|]. split; [exact Hln|].
    apply Hev. simpl. lia.
Defined.

(** X2: the names given to the atoms are pairwise different: two [p]
    atoms or two [s] atoms of different indices have different names,
    and a [p] atom never has the name of an [s] atom; so lines 4 and 5
    create 64 distinct symbols. *)
Theorem X2_atoms_distinct (h : list expr -> list expr) (st0 : state) :
  Inj eq eq p_name /\ Inj eq eq s_name /\
  (forall i j, p_name i <> s_name j) /\
  exists st, construction h st0 = Some st /\ NoDup (p st ++ s st).
Proof.
  split; [exact p_name_inj|]. split; [exact s_name_inj|].
  split; [exact p_name_not_s_name|].
  destruct (construction_spec h st0) as (st & E & Hpl & Hsl & _).
  exists st. split; [exact E|]. rewrite Hpl, Hsl. unfold p_list, s_list, range.
  assert (Hsym : forall n1 n2, Symbol n1 = Symbol n2 -> n1 = n2).
  { intros n1 n2 H.
    exact (f_equal (fun e => match e with Sym n => n | _ => n1 end) H). }
  assert (Hp : Inj eq eq (fun i => Symbol (p_name i)))
    by (intros i j H; apply p_name_inj, Hsym, H).
  assert (Hs : Inj eq eq (fun i => Symbol (s_name i)))
    by (intros i j H; apply s_name_inj, Hsym, H).
  apply NoDup_app. split; [|split].
  - apply (NoDup_fmap_2 _), NoDup_seq.
  - intros x (i & -> & _)%list_elem_of_fmap (j & H & _)%list_elem_of_fmap.
    exact (p_name_not_s_name i j (Hsym _ _ H)).
  - apply (NoDup_fmap_2 _), NoDup_seq.
Qed.

(** X3: the carry [c[i]] as built by line 8 has [4 i + 1] nodes, while
    the normal form printed for it has [(i + 1) (i + 2) / 2] occurrences
    of atoms: the built expressions grow linearly with the index, the
    printed ones quadratically. *)
Theorem X3_expression_sizes (h : list expr -> list expr) (fuel i : nat) :
  hash_ok h -> depth <= fuel -> i < 32 ->
  exists st ci d,
    main h fuel = Some st /\
    c st !! i = Some ci /\
    to_dnf h fuel ci = Some d /\
    _node_count ci = 4 * i + 1 /\
    2 * literal_count d = (i + 1) * (i + 2).
Proof.
  intros Hh Hfuel Hi.
  destruct (run_spec h Hh fuel Hfuel)
    as (st1 & st & ds & _ & _ & _ & _ & Hc & E & _ & _ & Hcs & HF & Hl & _ & _ & Hcf).
  destruct (lookup_lt_is_Some_2 ds i) as [d Hd]; [lia|].
  destruct (Forall2_lookup_r _ _ _ _ _ HF Hd) as (ci & Hci & Hdnf).
  exists st, ci, d. split; [exact E|]. split; [rewrite Hcs; exact Hci|].
  split; [exact Hdnf|].
  split; [exact (chain_node_count h Hh _ _ _ Hc Hi Hci)|].
  apply closed_form_literal_count, Hcf, Hd.
Qed.

Lemma X3_expression_sizes_witness :
  exists st ci d,
    main insertion_order 32 = Some st /\
    c st !! 31 = Some ci /\
    to_dnf insertion_order 32 ci = Some d /\
    _node_count ci = 125 /\ literal_count d = 528.
Proof.
  destruct (X3_expression_sizes insertion_order 32 31)
    as (st & ci & d & E & Hci & Hd & Hn & Hl).
  - exact insertion_order_ok.
  - unfold depth. lia.
  - lia.
  - exists st, ci, d. split; [exact E|]. split; [exact Hci|].
    split; [exact Hd|]. split; [exact Hn|lia].
Defined.


